(** * hue: terminal colourisation with ECMA-48 colour codes

    A shallow embedding of package [hue] and the properties of its
    encoder, decoder, solid writer and regexp-driven writer.

    Two revisions of [hue.go] are present in the sources:
    - [src/unnamed/part_001]: the [Hue] struct has exported fields [Fg],
      [Bg]; [Encode] replaces unset fields by [Default] and adds 10 to the
      background when formatting;
    - [src/unnamed/part_000]: the [hue] struct is private and built with
      [New]/[SetFg]/[SetBg] ([SetBg] stores the background with 10 already
      added); [Encode] formats the stored fields; [RegexpWriter] is added.
    They are embedded side by side in the modules [P001] and [P000]. *)

From Stdlib Require Import ZArith Lia Decimal DecimalZ Strings.Byte Strings.String.
From stdpp Require Import base option list gmap strings.

Local Open Scope Z_scope.

(** ** Go's machine integers and byte strings *)

(** Go's [int] on the 64-bit targets: a [Z] kept inside [-2^63, 2^63) by
    wrapping after every addition. *)
Definition wrap64 (z : Z) : Z := (z + 2 ^ 63) mod 2 ^ 64 - 2 ^ 63.
Definition int_add (a b : Z) : Z := wrap64 (a + b).

(** The conversion [byte(i)] of a non-negative [int]: the low eight bits. *)
Definition byte_of_int (i : nat) : nat := (i mod 256)%nat.

(** A Go [string] or [[]byte] is a sequence of bytes. *)
Abbreviation bytes := (list Byte.byte).

#[global] Instance byte_eq_dec : EqDecision Byte.byte := Byte.byte_eq_dec.

Definition byte_val (b : Byte.byte) : Z := Z.of_N (Byte.to_N b).
Definition byte_of_Z (z : Z) : Byte.byte :=
  match Byte.of_N (Z.to_N z) with Some b => b | None => Byte.x00 end.

(** Go's [error] values: only their presence matters here. *)
Inductive error := Err (code : nat).

#[global] Instance error_eq_dec : EqDecision error.
Proof. solve_decision. Defined.

(** ** Package [fmt]: the verbs used by [hue] *)
Module fmt.

Local Open Scope byte_scope.

Definition ESC : Byte.byte := Byte.x1b.

(** Operands of a formatting call ([interface{}] values). *)
Inductive arg :=
| AInt (z : Z)             (* an int *)
| AStr (s : bytes)         (* a string *)
| AByte (b : Byte.byte).   (* a byte (uint8) *)

Fixpoint digits (u : Decimal.uint) : bytes :=
  match u with
  | Nil => []
  | D0 u => "0" :: digits u
  | D1 u => "1" :: digits u
  | D2 u => "2" :: digits u
  | D3 u => "3" :: digits u
  | D4 u => "4" :: digits u
  | D5 u => "5" :: digits u
  | D6 u => "6" :: digits u
  | D7 u => "7" :: digits u
  | D8 u => "8" :: digits u
  | D9 u => "9" :: digits u
  end.

(** [%d] on an integer: decimal, with a minus sign when negative. *)
Definition fmt_d (z : Z) : bytes :=
  match Z.to_int z with
  | Decimal.Pos u => digits u
  | Decimal.Neg u => "-" :: digits u
  end.

(** [%c] on a byte operand: the UTF-8 encoding of the code point whose
    number is the byte's value; one byte below 0x80, two bytes from 0x80
    to 0xFF. *)
Definition fmt_c (b : Byte.byte) : bytes :=
  let v := byte_val b in
  if v <? 128 then [b]
  else [byte_of_Z (Z.lor 192 (Z.shiftr v 6));
        byte_of_Z (Z.lor 128 (Z.land v 63))].

(** [fmt.Sprintf] on the fragment the package uses: the verbs [%d], [%s],
    [%v], [%c] without flags, and [%%]. [None] stands for a call outside
    that fragment (an operand missing, left over or of the wrong kind, or
    another verb), where Go prints a [%!] diagnostic instead. *)
Fixpoint Sprintf (format : bytes) (a : list arg) : option bytes :=
  match format with
  | [] => match a with [] => Some [] | _ :: _ => None end
  | "%" :: verb :: rest =>
      match verb, a with
      | "%", _ => ("%" ::.) <$> Sprintf rest a
      | "d", AInt z :: a' => (fmt_d z ++.) <$> Sprintf rest a'
      | "d", AByte b :: a' => (fmt_d (byte_val b) ++.) <$> Sprintf rest a'
      | "s", AStr s :: a' => (s ++.) <$> Sprintf rest a'
      | "v", AStr s :: a' => (s ++.) <$> Sprintf rest a'
      | "v", AInt z :: a' => (fmt_d z ++.) <$> Sprintf rest a'
      | "v", AByte b :: a' => (fmt_d (byte_val b) ++.) <$> Sprintf rest a'
      | "c", AByte b :: a' => (fmt_c b ++.) <$> Sprintf rest a'
      | _, _ => None
      end
  | ["%"] => None
  | c :: rest => (c ::.) <$> Sprintf rest a
  end.

(** The text of an operand under [%v]. *)
Definition payload (a : arg) : bytes :=
  match a with
  | AInt z => fmt_d z
  | AStr s => s
  | AByte b => fmt_d (byte_val b)
  end.

End fmt.

Import fmt.

(** ** Output sinks: the [io.Writer] interface *)

(** An [io.Writer] is any state with a [Write] method that takes a chunk of
    bytes and answers with a count and an optional error. *)
Class io_Writer (W : Type) := io_Write : bytes → W → (Z * option error) * W.

(** [bytes.Buffer]: appends every chunk and never fails. *)
Record Buffer := mkBuffer { contents : bytes }.

#[global] Instance Buffer_Writer : io_Writer Buffer :=
  λ bs b, ((Z.of_nat (length bs), None), mkBuffer (contents b ++ bs)).

(** A sink that keeps the chunks of the successive [Write] calls apart. *)
Record Recorder := mkRecorder { calls : list bytes }.

#[global] Instance Recorder_Writer : io_Writer Recorder :=
  λ bs r, ((Z.of_nat (length bs), None), mkRecorder (calls r ++ [bs])).

(** A sink with room for [room] more bytes: a chunk that fits is taken whole,
    a chunk that does not is refused with an error and nothing is taken. *)
Record Limited := mkLimited { room : nat; taken : bytes }.

#[global] Instance Limited_Writer : io_Writer Limited :=
  λ bs l,
    if decide (length bs ≤ room l)%nat
    then ((Z.of_nat (length bs), None),
          mkLimited (room l - length bs) (taken l ++ bs))
    else ((0, Some (Err 1)), l).

(** The slice expression [b[lo:hi]] for [lo ≤ hi ≤ len(b)]. *)
Definition slice (lo hi : nat) (b : bytes) : bytes := take (hi - lo) (drop lo b).

(** A panic raised by [Decode]; the message is built from the string and its
    length. *)
Inductive panic := LengthError (hs : bytes) (l : nat).

(** A string literal as bytes. *)
Definition lit (s : string) : bytes := String.list_byte_of_string s.

(** * Revision [src/unnamed/part_001]: exported [Hue] fields *)
Module P001.

(** Foreground color codes: [const ( Black = iota + 30; ...; Default )]. *)
Definition Black : Z := 30.
Definition Red : Z := 31.
Definition Green : Z := 32.
Definition Brown : Z := 33.
Definition Blue : Z := 34.
Definition Magenta : Z := 35.
Definition Cyan : Z := 36.
Definition White : Z := 37.
Definition Default : Z := 38.

(** The color codes the package defines (the values of [Names]). *)
Definition Colors : list Z :=
  [Black; Red; Green; Brown; Blue; Magenta; Cyan; White; Default].

(** [type String string] *)
Abbreviation String := bytes.

(** [type Hue struct { Fg, Bg int }] *)
Record Hue := mkHue { Fg : Z; Bg : Z }.

(** Every function takes its [Hue] through a pointer: the [Hue] objects
    live in a store, and a [*Hue] is a location of it. A location outside
    the store stands for [nil]; dereferencing it panics. *)
Abbreviation loc := nat.
Abbreviation heap := (gmap nat Hue).

(** Computations that read and write the store and may panic. *)
Definition M (A : Type) : Type := heap → option (A * heap).

Definition ret {A} (a : A) : M A := λ σ, Some (a, σ).
Definition bind {A B} (m : M A) (k : A → M B) : M B :=
  λ σ, match m σ with Some (a, σ') => k a σ' | None => None end.
Definition lift {A} (o : option A) : M A := λ σ, (., σ) <$> o.

#[global] Instance M_ret : MRet M := @ret.
#[global] Instance M_bind : MBind M := λ A B k m, bind m k.

(** [*h] *)
Definition load (h : loc) : M Hue := λ σ, (., σ) <$> σ !! h.
(** [h.Fg = v], [h.Bg = v] *)
Definition store_Fg (h : loc) (v : Z) : M unit :=
  λ σ, match σ !! h with
       | Some hv => Some (tt, <[h := mkHue v (Bg hv)]> σ)
       | None => None
       end.
Definition store_Bg (h : loc) (v : Z) : M unit :=
  λ σ, match σ !! h with
       | Some hv => Some (tt, <[h := mkHue (Fg hv) v]> σ)
       | None => None
       end.

(** [isUnset] returns true if the hue integer value is 0. *)
Definition isUnset (i : Z) : bool := i =? 0.

(** [Decode] strips all color data from the String object. *)
Definition Decode (hs : String) : panic + bytes :=
  let l := length hs in
  if decide (l < 12)%nat then inl (LengthError hs l)
  else inr (slice 8 (length hs - 4) hs).

(** The format literal of [Encode]. *)
Definition Encode_format : bytes :=
  Eval cbv in ESC :: lit "[%d;%dm%v" ++ ESC :: lit "[0m".

(** [Encode] encapsulates interface a's string representation with the
    color codes stored in the [Hue] structure. *)
Definition Encode (h : loc) (a : arg) : M String :=
  hv ← load h;
  (if isUnset (Fg hv) then store_Fg h Default else ret tt);;
  hv ← load h;
  (if isUnset (Bg hv) then store_Bg h Default else ret tt);;
  hv ← load h;
  lift (Sprintf Encode_format [AInt (Fg hv); AInt (int_add (Bg hv) 10); a]).

(** The method [(h *Hue) Sprintf]. *)
Definition Hue_Sprintf (h : loc) (format : bytes) (a : arg) : M String :=
  e ← Encode h (AStr format);
  lift (Sprintf e [a]).

(** [type Writer struct { *Hue; wrapped io.Writer }]: the pointer is kept
    here, the state of the wrapped sink is threaded through [Write]. *)
Record Writer := mkWriter { Writer_Hue : loc }.

Definition NewWriter (h : loc) : Writer := mkWriter h.
Definition SetHue (w : Writer) (h : loc) : Writer := mkWriter h.

(** [Write] colorizes and writes the contents of p to the underlying
    writer object. *)
Definition Write {W} `{io_Writer W} (w : Writer) (p : bytes)
  : W → M ((Z * option error) * W) :=
  λ s, e ← Hue_Sprintf (Writer_Hue w) (lit "%s") (AStr p);
       ret (io_Write e s).

Definition WriteString {W} `{io_Writer W} (w : Writer) (s : bytes)
  : W → M ((Z * option error) * W) := Write w s.

(** [Names] is a map of Hue strings to color codes. *)
Definition Names : gmap string Z :=
  list_to_map
    [("Black"%string, Black); ("Red"%string, Red); ("Green"%string, Green);
     ("Brown"%string, Brown); ("Blue"%string, Blue); ("Magenta"%string, Magenta);
     ("Cyan"%string, Cyan); ("White"%string, White); ("Default"%string, Default)].

(** [Printf], [Print] and [Println] write to the standard output of the
    process, here the bytes printed so far; what [fmt] returns is dropped. *)
Definition Printf (h : loc) (format : bytes) (a : arg) (out : bytes) : M bytes :=
  e ← Encode h (AStr format);
  s ← lift (Sprintf e [a]);
  ret (out ++ s).

Definition Print (h : loc) (a : arg) (out : bytes) : M bytes :=
  e ← Encode h a;
  ret (out ++ e).

Definition Println (h : loc) (a : arg) (out : bytes) : M bytes :=
  e ← Encode h a;
  ret (out ++ e ++ [Byte.x0a]).

End P001.

(** * Revision [src/unnamed/part_000]: private [hue], [RegexpWriter] *)
Module P000.

(** Foreground color codes: [const ( Black = iota + 30; ...; Default )]. *)
Definition Black : Z := 30.
Definition Red : Z := 31.
Definition Green : Z := 32.
Definition Brown : Z := 33.
Definition Blue : Z := 34.
Definition Magenta : Z := 35.
Definition Cyan : Z := 36.
Definition White : Z := 37.
Definition Underline : Z := 38.
Definition Default : Z := 39.

(** The color codes the package defines ([Names] has all but [Underline]). *)
Definition Colors : list Z :=
  [Black; Red; Green; Brown; Blue; Magenta; Cyan; White; Underline; Default].

(** [ASCIIFmt] is a format specifer for a ECMA-48 color string. *)
Definition ASCIIFmt : bytes := Eval cbv in ESC :: lit "[%d;%dm".
(** [ASCIIReset] is a reset code that restores the colors to their defaults. *)
Definition ASCIIReset : bytes := Eval cbv in ESC :: lit "[0m".
(** [ASCIIFmtReset]: [ASCIIFmt] and [ASCIIReset] with a value in between. *)
Definition ASCIIFmtReset : bytes :=
  Eval cbv in ESC :: lit "[%d;%dm%v" ++ ESC :: lit "[0m".

Abbreviation String := bytes.

(** [type hue struct { fg, bg int }]. No function of this revision other
    than [SetFg] and [SetBg] writes through a [*hue], so the functions
    below take the value the (non-nil) pointer refers to when called. *)
Record hue := mkhue { fg : Z; bg : Z }.

Definition SetFg (h : hue) (c : Z) : hue := mkhue c (bg h).
Definition SetBg (h : hue) (c : Z) : hue := mkhue (fg h) (int_add c 10).
(** [New] creates a new hue object from [new(hue)], the zero struct. *)
Definition New (fg bg : Z) : hue := SetBg (SetFg (mkhue 0 0) fg) bg.
Definition Fg (h : hue) : Z := fg h.
Definition Bg (h : hue) : Z := bg h.

Definition Decode (hs : String) : panic + bytes :=
  let l := length hs in
  if decide (l < 12)%nat then inl (LengthError hs l)
  else inr (slice 8 (length hs - 4) hs).

Definition Encode (h : hue) (a : arg) : option String :=
  Sprintf ASCIIFmtReset [AInt (Fg h); AInt (Bg h); a].

(** The method [(h *hue) Sprintf]. *)
Definition hue_Sprintf (h : hue) (format : bytes) (a : arg) : option String :=
  e ← Encode h (AStr format); Sprintf e [a].

(** [type Writer struct { *hue; wrapped io.Writer }] *)
Record Writer := mkWriter { Writer_hue : hue }.

Definition NewWriter (h : hue) : Writer := mkWriter h.
Definition SetHue (w : Writer) (h : hue) : Writer := mkWriter h.

Definition Writer_Write {W} `{io_Writer W} (w : Writer) (p : bytes) (s : W)
  : option ((Z * option error) * W) :=
  e ← hue_Sprintf (Writer_hue w) (lit "%s") (AStr p); Some (io_Write e s).

Definition Writer_WriteString {W} `{io_Writer W} (w : Writer) (s : bytes)
  : W → option ((Z * option error) * W) := Writer_Write w s.

(** *** The regexp writer *)

(** A compiled [*regexp.Regexp], seen through the one method [Write] calls:
    [FindAllIndex p] is [re.FindAllIndex(p, -1)], the spans [[lo, hi]] of
    all successive matches. The regexp package returns spans that lie
    inside the buffer. *)
Record Regexp := mkRegexp {
  FindAllIndex : bytes → list (nat * nat);
  FindAllIndex_in_range :
    ∀ p, Forall (λ w, w.1 ≤ w.2 ≤ length p)%nat (FindAllIndex p)
}.

(** [type rule struct { *hue; *regexp.Regexp }] *)
Record rule := mkrule { rule_hue : hue; rule_Regexp : Regexp }.

(** The process has its standard output, and the sink a [RegexpWriter]
    wraps is either that same [os.Stdout] or a writer of its own. *)
Inductive Dest := ToStdout | ToSink.

Record World (W : Type) := mkWorld { os_Stdout : bytes; sink : W }.
Arguments mkWorld {W}.
Arguments os_Stdout {W}.
Arguments sink {W}.

(** [type RegexpWriter struct { rules []rule; wrapped io.Writer }] *)
Record RegexpWriter := mkRegexpWriter { rules : list rule; wrapped : Dest }.

Definition NewRegexpWriter (w : Dest) : RegexpWriter := mkRegexpWriter [] w.

(** [AddRule] binds a hue to a regular expression. *)
Definition AddRule (w : RegexpWriter) (h : hue) (re : Regexp) : RegexpWriter :=
  mkRegexpWriter (rules w ++ [mkrule h re]) (wrapped w).

(** [FlushRules] deletes all rules added with [AddRule]. *)
Definition FlushRules (w : RegexpWriter) : RegexpWriter :=
  mkRegexpWriter [] (wrapped w).

Section Write.
Context {W : Type} `{io_Writer W}.

(** Standard output takes every chunk. *)
Definition Stdout_Write (bs : bytes) (σ : World W) : (Z * option error) * World W :=
  ((Z.of_nat (length bs), None), mkWorld (os_Stdout σ ++ bs) (sink σ)).

(** [w.wrapped.Write(bs)] *)
Definition wrapped_Write (d : Dest) (bs : bytes) (σ : World W)
  : (Z * option error) * World W :=
  match d with
  | ToStdout => Stdout_Write bs σ
  | ToSink => let '(r, s) := io_Write bs (sink σ) in (r, mkWorld (os_Stdout σ) s)
  end.

(** [fmt.Fprintf(w.wrapped, format, a...)]: format, then one [Write]
    call whose count and error are returned. *)
Definition Fprintf (d : Dest) (format : bytes) (a : list arg) (σ : World W)
  : option ((Z * option error) * World W) :=
  bs ← Sprintf format a; Some (wrapped_Write d bs σ).

(** [fmt.Print(s)] for a string [s]: written to standard output, the
    count and error are dropped. *)
Definition Print (s : bytes) (σ : World W) : World W := (Stdout_Write s σ).2.

(** [for j := w[0]; j < w[1]; j++ { huemap[j] = c }] *)
Definition paint (c : nat) (huemap : list nat) (w : nat * nat) : list nat :=
  foldl (λ hm j, <[j := c]> hm) huemap (seq w.1 (w.2 - w.1)).

(** The first loop of [Write], from [i] on; [rs] are the rules
    [w.rules[i-1:]]. [rulemap] is a [[]*hue]: [None] is a nil pointer. *)
Fixpoint for_rules (rs : list rule) (p : bytes) (i : nat)
    (huemap : list nat) (rulemap : list (option hue))
  : list nat * list (option hue) :=
  match rs with
  | [] => (huemap, rulemap)
  | r :: rs' =>
      let x := FindAllIndex (rule_Regexp r) p in
      let rulemap := <[i := Some (rule_hue r)]> rulemap in
      let huemap := foldl (paint (byte_of_int i)) huemap x in
      for_rules rs' p (S i) huemap rulemap
  end.

(** [huemap] and [rulemap] as the first loop leaves them. *)
Definition maps (w : RegexpWriter) (p : bytes) : list nat * list (option hue) :=
  let huemap := replicate (length p) 0%nat in
  let rulemap := replicate (length (rules w) + 1) None in
  let rulemap := <[0%nat := Some (mkhue 0 0)]> rulemap in
  for_rules (rules w) p 1 huemap rulemap.

(** How the second loop is left: by one of its [return n, err], or by
    running off the end of [p]. *)
Inductive outcome := Return (n : Z) (err : error) | Done (n : Z).

(** The second loop of [Write], from index [i] on; [rest] is [p[i:]].
    [None] is a panic (an index out of range, a nil [*hue]). *)
Fixpoint range_p (d : Dest) (huemap : list nat) (rulemap : list (option hue))
    (i : nat) (rest : bytes) (hue : nat) (n : Z) (σ : World W)
  : option (outcome * World W) :=
  match rest with
  | [] => Some (Done n, σ)
  | c :: rest' =>
      hm ← huemap !! i;
      entered ←
        (if decide (hm = hue) then Some (Done n, σ)
         else
           th ← mjoin (rulemap !! hm);
           '((nb, err), σ1) ← Fprintf d ASCIIFmt [AInt (Fg th); AInt (Bg th)] σ;
           Some (match err with
                 | Some e => Return n e
                 | None => Done (int_add n nb)
                 end, σ1));
      match entered with
      | (Return n e, σ1) => Some (Return n e, σ1)
      | (Done n, σ1) =>
          '((nb, err), σ2) ← Fprintf d (lit "%c") [AByte c] σ1;
          match err with
          | Some e => Some (Return n e, σ2)
          | None => range_p d huemap rulemap (S i) rest' hm (int_add n nb) σ2
          end
      end
  end.

(** [Write] writes the contents of p into the buffer after processesing
    the regexp rules added to Writer with [AddRule]. *)
Definition Write (w : RegexpWriter) (p : bytes) (σ : World W)
  : option ((Z * option error) * World W) :=
  let '(huemap, rulemap) := maps w p in
  '(o, σ') ← range_p (wrapped w) huemap rulemap 0 p 0%nat 0 σ;
  match o with
  | Return n err => Some ((n, Some err), σ')
  | Done n => Some ((n, None), Print ASCIIReset σ')
  end.

Definition WriteString (w : RegexpWriter) (s : bytes) (σ : World W)
  : option ((Z * option error) * World W) := Write w s σ.

(** *** Rules with nil pointers

    [AddRule] takes any [*hue] and any [*regexp.Regexp], nil included, and
    stores them as they are. [rule_ptr] is the [rule] struct with its two
    pointers as Go has them, [None] for nil; [rule] above is a [rule_ptr]
    with both pointers set, [rule_set]. *)
Record rule_ptr := mkrule_ptr { ptr_hue : option hue; ptr_Regexp : option Regexp }.

Definition rule_set (r : rule) : rule_ptr :=
  mkrule_ptr (Some (rule_hue r)) (Some (rule_Regexp r)).

Definition AddRule_ptr (rs : list rule_ptr) (h : option hue) (re : option Regexp)
  : list rule_ptr := rs ++ [mkrule_ptr h re].

(** The first loop of [Write] over such rules. [r.FindAllIndex(p, -1)] is
    a method of the embedded [*regexp.Regexp] that reads through its
    receiver: on a nil pointer it panics, [None]. [rulemap[i] = r.hue]
    copies the pointer, nil or not. *)
Fixpoint for_rules_ptr (rs : list rule_ptr) (p : bytes) (i : nat)
    (huemap : list nat) (rulemap : list (option hue))
  : option (list nat * list (option hue)) :=
  match rs with
  | [] => Some (huemap, rulemap)
  | r :: rs' =>
      re ← ptr_Regexp r;
      let x := FindAllIndex re p in
      let rulemap := <[i := ptr_hue r]> rulemap in
      let huemap := foldl (paint (byte_of_int i)) huemap x in
      for_rules_ptr rs' p (S i) huemap rulemap
  end.

Definition maps_ptr (rs : list rule_ptr) (p : bytes)
  : option (list nat * list (option hue)) :=
  let huemap := replicate (length p) 0%nat in
  let rulemap := replicate (length rs + 1) None in
  let rulemap := <[0%nat := Some (mkhue 0 0)]> rulemap in
  for_rules_ptr rs p 1 huemap rulemap.

(** [Write] over such rules: the second loop is [range_p], where
    [th.Fg()] on a nil [th] panics. *)
Definition Write_ptr (rs : list rule_ptr) (d : Dest) (p : bytes) (σ : World W)
  : option ((Z * option error) * World W) :=
  '(huemap, rulemap) ← maps_ptr rs p;
  '(o, σ') ← range_p d huemap rulemap 0 p 0%nat 0 σ;
  match o with
  | Return n err => Some ((n, Some err), σ')
  | Done n => Some ((n, None), Print ASCIIReset σ')
  end.

End Write.

(** [Names] is a map of hue strings to color codes. *)
Definition Names : gmap string Z :=
  list_to_map
    [("Black"%string, Black); ("Red"%string, Red); ("Green"%string, Green);
     ("Brown"%string, Brown); ("Blue"%string, Blue); ("Magenta"%string, Magenta);
     ("Cyan"%string, Cyan); ("White"%string, White); ("Default"%string, Default)].

(** [Printf], [Print] and [Println] of a hue write to the standard output of
    the process, here the bytes printed so far; what [fmt] returns is
    dropped. *)
Definition hue_Printf (h : hue) (format : bytes) (a : arg) (out : bytes)
  : option bytes :=
  e ← Encode h (AStr format); s ← Sprintf e [a]; Some (out ++ s).

Definition hue_Print (h : hue) (a : arg) (out : bytes) : option bytes :=
  e ← Encode h a; Some (out ++ e).

Definition hue_Println (h : hue) (a : arg) (out : bytes) : option bytes :=
  e ← Encode h a; Some (out ++ e ++ [Byte.x0a]).

End P000.

(** * Vocabulary of the specification *)
Module Spec.
Import P000.
Local Open Scope byte_scope.

(** The enter-color sequence [ESC [ <fg> ; <bg> m] of a hue. *)
Definition enter_color (h : hue) : bytes :=
  ESC :: "[" :: fmt_d (Fg h) ++ ";" :: fmt_d (Bg h) ++ ["m"].

(** The per-byte color assignment and the table of hues of a [Write]. *)
Definition huemap_of (rs : list rule) (p : bytes) : list nat :=
  (maps (mkRegexpWriter rs ToSink) p).1.
Definition rulemap_of (rs : list rule) (p : bytes) : list (option hue) :=
  (maps (mkRegexpWriter rs ToSink) p).2.

(** Position [pos] lies in the span of a match of [re] in [p]. *)
Definition covered (re : Regexp) (p : bytes) (pos : nat) : bool :=
  existsb (λ w : nat * nat, (w.1 <=? pos)%nat && (pos <? w.2)%nat) (FindAllIndex re p).

(** Among the rules [rs], numbered from [i] on in the order they were
    added, the number of the last one with a match that covers [pos];
    0 when there is none. *)
Fixpoint last_covering (i : nat) (rs : list rule) (p : bytes) (pos : nat) : nat :=
  match rs with
  | [] => 0
  | r :: rs' =>
      match last_covering (S i) rs' p pos with
      | O => if covered (rule_Regexp r) p pos then i else 0
      | k => k
      end
  end%nat.

(** A chunk written to the sink is an escape sequence when it starts with
    [ESC []; the chunk of a payload byte never does. *)
Definition is_escape (chunk : bytes) : bool :=
  match chunk with
  | c1 :: c2 :: _ => bool_decide (c1 = ESC) && bool_decide (c2 = "[")
  | _ => false
  end.
Definition escapes (chunks : list bytes) : nat := length (filter is_escape chunks).

(** Number of positions of [hm] whose entry differs from the entry before
    it, [cur] standing before the first. *)
Fixpoint changes (cur : nat) (hm : list nat) : nat :=
  match hm with
  | [] => 0
  | k :: hm' => (if decide (k = cur) then 0 else 1) + changes k hm'
  end%nat.

(** Number of maximal runs of equal consecutive entries. *)
Definition runs (hm : list nat) : nat :=
  match hm with
  | [] => 0
  | k :: hm' => S (changes k hm')
  end.

(** The chunks the second loop of [Write] hands to the sink when no write
    fails: for each byte, an enter-color sequence when its entry differs
    from the active one, then the byte under [%c]. *)
Fixpoint emissions (rulemap : list (option hue)) (hm : list nat) (p : bytes)
    (cur : nat) : list bytes :=
  match hm, p with
  | k :: hm', c :: p' =>
      (if decide (k = cur) then []
       else [enter_color (default (mkhue 0 0) (mjoin (rulemap !! k)))])
      ++ fmt_c c :: emissions rulemap hm' p' k
  | _, _ => []
  end.

(** In revision [part_001], a [Hue] with [Default] in place of each unset
    field, and the enter-color sequence [Encode] prints for a [Hue]. *)
Definition repaired (hv : P001.Hue) : P001.Hue :=
  P001.mkHue (if P001.isUnset (P001.Fg hv) then P001.Default else P001.Fg hv)
             (if P001.isUnset (P001.Bg hv) then P001.Default else P001.Bg hv).

Definition prefix001 (hv : P001.Hue) : bytes :=
  ESC :: "[" :: fmt_d (P001.Fg hv) ++ ";" :: fmt_d (int_add (P001.Bg hv) 10) ++ ["m"].

(** The index that is active when the second loop reaches position [i]:
    the entry of the byte before, 0 at the start. *)
Definition active (hm : list nat) (i : nat) : nat :=
  match i with
  | O => 0%nat
  | S j => default 0%nat (hm !! j)
  end.

(** Handing a list of chunks to the wrapped sink one after the other,
    counting the bytes, up to the first error. *)
Fixpoint write_all {W} `{io_Writer W} (d : Dest) (chunks : list bytes) (n : Z)
    (σ : World W) : outcome * World W :=
  match chunks with
  | [] => (Done n, σ)
  | c :: cs =>
      let '((nb, err), σ') := wrapped_Write d c σ in
      match err with
      | Some e => (Return n e, σ')
      | None => write_all d cs (int_add n nb) σ'
      end
  end.

End Spec.

(** * Patterns and inputs used in the examples *)
Module Samples.
Import P000.

(** The matches of a one-byte literal pattern such as ["X"] in [p[i:]]. *)
Fixpoint find_byte (c : Byte.byte) (i : nat) (p : bytes) : list (nat * nat) :=
  match p with
  | [] => []
  | b :: p' => (if decide (b = c) then [(i, S i)] else []) ++ find_byte c (S i) p'
  end.

Lemma find_byte_in_range c p i :
  Forall (λ w : nat * nat, w.1 ≤ w.2 ≤ i + length p)%nat (find_byte c i p).
Proof.
  revert i. induction p as [|b p IH]; intros i; simpl; [constructor|].
  apply Forall_app. split.
  - case_decide; repeat constructor; simpl; lia.
  - eapply Forall_impl; [apply (IH (S i))|]. simpl. intros w ?. lia.
Qed.

Definition re_byte (c : Byte.byte) : Regexp :=
  mkRegexp (find_byte c 0) (λ p, find_byte_in_range c p 0).

(** A pattern whose only match in a buffer that reaches [hi] is [[lo, hi)]. *)
Definition find_at (lo hi : nat) (p : bytes) : list (nat * nat) :=
  if decide (lo ≤ hi ≤ length p)%nat then [(lo, hi)] else [].

Lemma find_at_in_range lo hi p :
  Forall (λ w : nat * nat, w.1 ≤ w.2 ≤ length p)%nat (find_at lo hi p).
Proof. unfold find_at. case_decide; repeat constructor; simpl; lia. Qed.

Definition re_at (lo hi : nat) : Regexp := mkRegexp (find_at lo hi) (find_at_in_range lo hi).

Definition green : hue := New Green Default.
Definition red : hue := New Red Default.

Definition empty_world {W} (s : W) : World W := mkWorld [] s.

(** 256 rules, each colouring the letter X. *)
Definition rules256 : list rule := replicate 256 (mkrule green (re_byte "X"%byte)).

End Samples.

(** * The test of [src/hue_test.go] *)
Module Test.
Import P001.

(** [hs.Decode()] inside the test: a panic ends the run. *)
Definition Decode_M (hs : String) : M bytes :=
  lift (match Decode hs with inr s => Some s | inl _ => None end).

(** The body of the innermost loop for the input [u] and the codes [v], [w];
    [failed] is the flag that [t.Fail()] sets. *)
Definition body (h : loc) (u : bytes) (v w : Z) (failed : bool) : M bool :=
  hs ← Encode h (AStr u);
  d ← Decode_M hs;
  let failed := if decide (u ≠ d) then true else failed in
  store_Fg h w;;
  store_Bg h v;;
  ret failed.

(** A [for _, x := range l] loop that threads the flag; the body is told
    the number of the pass, counted from [i]. *)
Fixpoint for_each {A} (l : list A) (i : nat) (f : nat → A → bool → M bool)
    (failed : bool) : M bool :=
  match l with
  | [] => ret failed
  | x :: l' => failed ← f i x failed; for_each l' (S i) f failed
  end.

(** The five strings of [testInputs]; [\300] is the byte 0xc0. *)
Definition testInputs : list bytes :=
  [ lit "The quick brown fox jumped over the lazy dog";
    lit "Test";
    [];
    [Byte.xc0; Byte.x0d; Byte.x0a; Byte.x09; Byte.x0d; Byte.x0a];
    ESC :: lit "[00;00m" ++ ESC :: lit "[0m" ].

(** [TestEncodeDecode]: [var h Hue] is a fresh zero [Hue]. The order in
    which a [range Names] loop yields the codes is chosen by the Go runtime
    anew each time the loop is entered: [range_v i] is the order of the
    middle loop when it is entered in pass [i] of the outer loop, and
    [range_w i j] the order of the inner loop when it is entered in pass
    [j] of that middle loop. The result is whether the test was marked as
    failed. *)
Definition TestEncodeDecode (testInputs : list bytes)
    (range_v : nat → list Z) (range_w : nat → nat → list Z) : option bool :=
  let h : loc := 0%nat in
  fst <$>
    for_each testInputs 0 (λ i u,
      for_each (range_v i) 0 (λ j v,
        for_each (range_w i j) 0 (λ _ w, body h u v w))) false {[ h := mkHue 0 0 ]}.

(** What the test keeps true of the store: it holds the one [Hue], whose
    fields are 0 or color codes. *)
Definition test_store (σ : gmap nat Hue) : Prop :=
  ∃ hv, σ = {[ 0%nat := hv ]} ∧ Fg hv ∈ 0 :: Colors ∧ Bg hv ∈ 0 :: Colors.

End Test.

Import Samples Spec.

(** * Facts about formatting *)
Section fmt_facts.
Local Open Scope byte_scope.

Lemma digits_no_percent (u : Decimal.uint) : Forall (λ c, c ≠ "%") (digits u).
Proof. induction u; simpl; constructor; done. Qed.

Lemma fmt_d_no_percent (z : Z) : Forall (λ c, c ≠ "%") (fmt_d z).
Proof.
  unfold fmt_d. destruct (Z.to_int z); [|constructor; [done|]];
    apply digits_no_percent.
Qed.

(** Bytes other than the percent sign are copied. *)
Lemma Sprintf_copy (c : Byte.byte) (rest : bytes) (a : list arg) :
  c ≠ "%" → Sprintf (c :: rest) a = (c ::.) <$> Sprintf rest a.
Proof. intros Hc. destruct c; try reflexivity. done. Qed.

Lemma Sprintf_literal (pre rest : bytes) (a : list arg) :
  Forall (λ c, c ≠ "%") pre →
  Sprintf (pre ++ rest) a = (pre ++.) <$> Sprintf rest a.
Proof.
  induction 1 as [|c pre Hc _ IH]; simpl app.
  - by destruct (Sprintf rest a).
  - rewrite Sprintf_copy, IH by done. by destruct (Sprintf rest a).
Qed.

Lemma Sprintf_ASCIIFmt (f b : Z) :
  Sprintf P000.ASCIIFmt [AInt f; AInt b]
  = Some (ESC :: "[" :: fmt_d f ++ ";" :: fmt_d b ++ ["m"]).
Proof. reflexivity. Qed.

Lemma Sprintf_c (c : Byte.byte) : Sprintf (lit "%c") [AByte c] = Some (fmt_c c).
Proof. simpl. by rewrite app_nil_r. Qed.

Lemma Sprintf_ASCIIFmtReset (f b : Z) (a : arg) :
  Sprintf P000.ASCIIFmtReset [AInt f; AInt b; a]
  = Some ((ESC :: "[" :: fmt_d f ++ ";" :: fmt_d b ++ ["m"]) ++ payload a ++ P000.ASCIIReset).
Proof.
  destruct a; simpl; unfold P000.ASCIIReset, ESC;
    repeat (rewrite <- app_assoc; simpl); reflexivity.
Qed.

Lemma Sprintf_s_reset (p : bytes) :
  Sprintf (lit "%s" ++ P000.ASCIIReset) [AStr p] = Some (p ++ P000.ASCIIReset).
Proof. reflexivity. Qed.

(** Formatting the encoding of ["%s"] with a string operand puts the
    operand where the verb stands. *)
Lemma Sprintf_encoded_s (f b : Z) (p : bytes) :
  Sprintf ((ESC :: "[" :: fmt_d f ++ ";" :: fmt_d b ++ ["m"])
             ++ lit "%s" ++ P000.ASCIIReset) [AStr p]
  = Some ((ESC :: "[" :: fmt_d f ++ ";" :: fmt_d b ++ ["m"]) ++ p ++ P000.ASCIIReset).
Proof.
  rewrite Sprintf_literal, Sprintf_s_reset; [done|].
  repeat first [ apply Forall_cons; split; [done|]
               | apply Forall_app; split
               | apply fmt_d_no_percent
               | apply Forall_nil_2 ].
Qed.

Lemma digits_zero (u : Decimal.uint) : digits u = ["0"] → u = D0 Nil.
Proof. destruct u as [|u|u|u|u|u|u|u|u|u|u]; try done. by destruct u. Qed.

(** Only the integer 0 prints as ["0"]. *)
Lemma fmt_d_zero (z : Z) : fmt_d z = ["0"] → z = 0.
Proof.
  unfold fmt_d. intros Hz. rewrite <- (DecimalZ.of_to z).
  destruct (Z.to_int z) as [u|u]; [|done].
  by rewrite (digits_zero u Hz).
Qed.

End fmt_facts.

(** * The encoder and the decoder *)
Section codec.
Local Open Scope byte_scope.
Local Open Scope nat_scope.

Lemma Decode_same (hs : bytes) : P001.Decode hs = P000.Decode hs.
Proof. reflexivity. Qed.

Lemma Decode_short (hs : bytes) :
  length hs < 12 → P000.Decode hs = inl (LengthError hs (length hs)).
Proof. intros Hl. unfold P000.Decode. by rewrite decide_True. Qed.

Lemma Decode_long (hs : bytes) :
  12 ≤ length hs → P000.Decode hs = inr (slice 8 (length hs - 4) hs).
Proof. intros Hl. unfold P000.Decode. rewrite decide_False; [done|lia]. Qed.

(** Eight bytes in front and four behind are dropped, whatever they are. *)
Lemma Decode_strip (pre t suf : bytes) :
  length pre = 8 → length suf = 4 → P000.Decode (pre ++ t ++ suf) = inr t.
Proof.
  intros Hpre Hsuf. rewrite Decode_long by (rewrite !length_app; lia).
  unfold slice. f_equal. rewrite drop_app_length' by done.
  rewrite !length_app, Hpre, Hsuf.
  replace (8 + (length t + 4) - 4 - 8) with (length t) by lia.
  by rewrite take_app_length.
Qed.

Local Opaque Sprintf.

Lemma Encode001_eq (σ : gmap nat P001.Hue) (h : nat) (hv : P001.Hue) (a : arg) :
  σ !! h = Some hv →
  P001.Encode h a σ
  = Some (prefix001 (repaired hv) ++ payload a ++ P000.ASCIIReset,
          <[h := repaired hv]> σ).
Proof.
  intros Hh. destruct hv as [f b].
  unfold P001.Encode, mbind, P001.M_bind, P001.bind, P001.load, P001.lift.
  change P001.Encode_format with P000.ASCIIFmtReset.
  unfold repaired, prefix001. rewrite Hh. simpl.
  destruct (P001.isUnset f) eqn:Hf, (P001.isUnset b) eqn:Hb; simpl;
    unfold P001.store_Fg, P001.store_Bg, P001.ret; simpl;
    rewrite ?Hh, ?lookup_insert_eq; simpl;
    rewrite ?Hb, ?Hh, ?lookup_insert_eq; simpl;
    rewrite ?Hh, ?lookup_insert_eq; simpl;
    rewrite Sprintf_ASCIIFmtReset; simpl;
    rewrite ?insert_insert_eq, ?(insert_id σ h (P001.mkHue f b)) by done;
    reflexivity.
Qed.

Lemma Encode000_eq (h : P000.hue) (a : arg) :
  P000.Encode h a = Some (Spec.enter_color h ++ payload a ++ P000.ASCIIReset).
Proof. unfold P000.Encode. by rewrite Sprintf_ASCIIFmtReset. Qed.

End codec.

(** Case analysis on membership in an explicit list. *)
Ltac list_cases :=
  repeat match goal with
         | H : _ ∈ [] |- _ => by apply elem_of_nil in H
         | H : _ ∈ _ :: _ |- _ => apply elem_of_cons in H as [->|H]
         end.

Section codec_laws.
Local Open Scope nat_scope.

Lemma color001_prefix (hv : P001.Hue) :
  P001.Fg hv ∈ P001.Colors → P001.Bg hv ∈ P001.Colors →
  repaired hv = hv ∧ length (prefix001 hv) = 8.
Proof.
  destruct hv as [f b]. unfold P001.Colors. simpl. intros Hf Hb.
  list_cases; by vm_compute.
Qed.

Lemma color000_prefix (f b : Z) :
  f ∈ P000.Colors → b ∈ P000.Colors →
  length (enter_color (P000.New f b)) = 8.
Proof. unfold P000.Colors. intros Hf Hb. list_cases; by vm_compute. Qed.

(** C6. Round-trip law: for every text T and every pair whose foreground
    and background are among the defined color codes, decoding the
    encoding of T gives back T. It holds in both revisions: for a [Hue] of
    [part_001] read through its pointer, and for a hue built with [New] in
    [part_000]. *)
Theorem C6_decode_encode_round_trip (T : bytes) :
  (∀ (σ : gmap nat P001.Hue) (h : nat) (hv : P001.Hue),
      σ !! h = Some hv →
      P001.Fg hv ∈ P001.Colors → P001.Bg hv ∈ P001.Colors →
      ∃ e σ', P001.Encode h (AStr T) σ = Some (e, σ') ∧ P001.Decode e = inr T)
  ∧ (∀ f b : Z,
      f ∈ P000.Colors → b ∈ P000.Colors →
      ∃ e, P000.Encode (P000.New f b) (AStr T) = Some e ∧ P000.Decode e = inr T).
Proof.
  split.
  - intros σ h hv Hh Hf Hb.
    destruct (color001_prefix hv Hf Hb) as [Hrep Hlen].
    eexists _, _. split; [by apply Encode001_eq|].
    rewrite Hrep, Decode_same. by apply Decode_strip.
  - intros f b Hf Hb. eexists. split; [apply Encode000_eq|].
    apply Decode_strip; [by apply color000_prefix|done].
Qed.

Lemma C6_decode_encode_round_trip_witness :
  (match P001.Encode 0 (AStr (lit "Test")) {[ 0 := P001.mkHue P001.Red P001.White ]} with
   | Some (e, _) => P001.Decode e
   | None => inr []
   end = inr (lit "Test"))
  ∧ (P000.Encode (P000.New P000.Green P000.Default) (AStr (lit "Test")) ≫= (λ e, Some (P000.Decode e))
     = Some (inr (lit "Test"))).
Proof.
  destruct (C6_decode_encode_round_trip (lit "Test")) as [H1 H0]. split.
  - destruct (H1 {[ 0 := P001.mkHue P001.Red P001.White ]} 0
                 (P001.mkHue P001.Red P001.White)) as (e & σ' & He & Hd).
    + reflexivity.
    + unfold P001.Colors. simpl. repeat constructor.
    + unfold P001.Colors. simpl. repeat constructor.
    + rewrite He. exact Hd.
  - destruct (H0 P000.Green P000.Default) as (e & He & Hd).
    + unfold P000.Colors. repeat constructor.
    + unfold P000.Colors. repeat constructor.
    + rewrite He. simpl. by rewrite Hd.
Defined.

(** C7. [Decode] ends in a [LengthError] exactly when the encoded value
    has fewer than 12 bytes; otherwise it returns the bytes from index 8 up
    to four before the end: whatever the eight leading and four trailing
    bytes are, they are dropped and the rest is returned; a value of 12
    bytes decodes to the empty text. The two revisions agree. *)
Theorem C7_Decode_length_law (hs : bytes) :
  P001.Decode hs = P000.Decode hs
  ∧ ((∃ l, P000.Decode hs = inl (LengthError hs l)) ↔ length hs < 12)
  ∧ (12 ≤ length hs → P000.Decode hs = inr (slice 8 (length hs - 4) hs))
  ∧ (∀ pre t suf : bytes,
       hs = pre ++ t ++ suf → length pre = 8 → length suf = 4 →
       P000.Decode hs = inr t)
  ∧ (length hs = 12 → P000.Decode hs = inr []).
Proof.
  split; [reflexivity|]. split; [|split; [|split]].
  - split.
    + intros [l Hl]. destruct (decide (length hs < 12)) as [|Hge]; [done|].
      rewrite Decode_long in Hl by lia. done.
    + intros Hl. eexists. by apply Decode_short.
  - apply Decode_long.
  - intros pre t suf -> Hp Hs. by apply Decode_strip.
  - intros Hl. rewrite Decode_long by lia. unfold slice. rewrite Hl.
    reflexivity.
Qed.

Lemma C7_Decode_length_law_witness :
  P000.Decode (lit "0123456789ab") = inr []
  ∧ P000.Decode (lit "01234567hue!89ab") = inr (lit "hue!")
  ∧ ∃ l, P000.Decode (lit "0123456789a") = inl (LengthError (lit "0123456789a") l).
Proof.
  split; [|split].
  - apply (C7_Decode_length_law (lit "0123456789ab")). reflexivity.
  - apply (proj1 (proj2 (proj2 (proj2 (C7_Decode_length_law (lit "01234567hue!89ab")))))
             (lit "01234567") (lit "hue!") (lit "89ab")); reflexivity.
  - apply (proj1 (proj2 (C7_Decode_length_law (lit "0123456789a")))). vm_compute. lia.
Defined.

End codec_laws.

(** * Unset fields, the store, and the solid writer *)
Section hue_laws.
Local Open Scope byte_scope.

Lemma isUnset_decide (i : Z) : P001.isUnset i = bool_decide (i = 0).
Proof.
  unfold P001.isUnset. destruct (Z.eqb_spec i 0).
  - by rewrite bool_decide_eq_true_2.
  - by rewrite bool_decide_eq_false_2.
Qed.

Lemma repaired_fields (hv : P001.Hue) :
  P001.Fg (repaired hv) = (if decide (P001.Fg hv = 0) then P001.Default else P001.Fg hv)
  ∧ P001.Bg (repaired hv) = (if decide (P001.Bg hv = 0) then P001.Default else P001.Bg hv).
Proof.
  unfold repaired. simpl. rewrite !isUnset_decide.
  split; case_decide;
    by rewrite ?bool_decide_eq_true_2, ?bool_decide_eq_false_2 by done.
Qed.

Lemma repaired_set (hv : P001.Hue) :
  P001.Fg (repaired hv) ≠ 0 ∧ P001.Bg (repaired hv) ≠ 0.
Proof.
  destruct (repaired_fields hv) as [-> ->]. split; by case_decide.
Qed.

Lemma repaired_idemp (hv : P001.Hue) : repaired (repaired hv) = repaired hv.
Proof.
  destruct (repaired_set hv) as [Hf Hb]. unfold repaired at 1.
  rewrite !isUnset_decide, !bool_decide_eq_false_2 by done.
  by destruct (repaired hv).
Qed.

(** The claim as stated fails on the [Encode] of [part_000]: a hue whose
    foreground is 0 is formatted as it is, with the code 0, where the
    substitution of [Default] would have given 39. *)
Lemma C8_Encode_keeps_zero_foreground :
  P000.Fg (P000.New 0 P000.Default) = 0
  ∧ P000.Encode (P000.New 0 P000.Default) (AStr (lit "hi"))
    = Some (ESC :: lit "[0;49mhi" ++ ESC :: lit "[0m")
  ∧ P000.Encode (P000.New 0 P000.Default) (AStr (lit "hi"))
    ≠ P000.Encode (P000.New P000.Default P000.Default) (AStr (lit "hi")).
Proof. split; [|split]; by vm_compute. Qed.

(** C8, amended. In revision [part_001], [Encode] puts [Default] in each
    field of the [Hue] that is 0 before it formats: the [Hue] it leaves
    behind the pointer holds the repaired fields (the store is the one
    before with that [Hue] at the location, and nothing else changed), the
    two fields it formats are never 0, the foreground is never printed as
    0, and the prefix is [ESC [ fg ; bg+10 m] of the repaired fields. In
    revision
    [part_000], [Encode] substitutes nothing: the prefix is
    [ESC [ fg ; bg m] of the fields as stored. *)
Theorem C8_Encode_unset_fields (a : arg) :
  (∀ (σ : gmap nat P001.Hue) (h : nat) (hv : P001.Hue),
      σ !! h = Some hv →
      ∃ (f b : Z) (σ' : gmap nat P001.Hue),
        f = (if decide (P001.Fg hv = 0) then P001.Default else P001.Fg hv)
        ∧ b = (if decide (P001.Bg hv = 0) then P001.Default else P001.Bg hv)
        ∧ f ≠ 0 ∧ b ≠ 0 ∧ fmt_d f ≠ ["0"]
        ∧ σ' = <[h := P001.mkHue f b]> σ
        ∧ σ' !! h = Some (P001.mkHue f b)
        ∧ P001.Encode h a σ
          = Some ((ESC :: "[" :: fmt_d f ++ ";" :: fmt_d (int_add b 10) ++ ["m"])
                    ++ payload a ++ P000.ASCIIReset, σ'))
  ∧ (∀ h : P000.hue,
      P000.Encode h a
      = Some ((ESC :: "[" :: fmt_d (P000.fg h) ++ ";" :: fmt_d (P000.bg h) ++ ["m"])
                ++ payload a ++ P000.ASCIIReset)).
Proof.
  split.
  - intros σ h hv Hh.
    destruct (repaired_fields hv) as [Hf Hb].
    destruct (repaired_set hv) as [Hf0 Hb0].
    assert (Hr : repaired hv = P001.mkHue (P001.Fg (repaired hv)) (P001.Bg (repaired hv)))
      by (by destruct (repaired hv)).
    exists (P001.Fg (repaired hv)), (P001.Bg (repaired hv)), (<[h := repaired hv]> σ).
    repeat split; try done.
    + intros Hz. by apply fmt_d_zero in Hz.
    + rewrite <- Hr. apply lookup_insert_eq.
    + by apply Encode001_eq.
  - intros h. apply Encode000_eq.
Qed.

Lemma C8_Encode_unset_fields_witness :
  ∃ σ', P001.Encode 0 (AStr (lit "hi")) {[ 0%nat := P001.mkHue 0 0 ]}
        = Some (ESC :: lit "[38;48mhi" ++ ESC :: lit "[0m", σ')
        ∧ σ' !! 0%nat = Some (P001.mkHue P001.Default P001.Default).
Proof.
  destruct (proj1 (C8_Encode_unset_fields (AStr (lit "hi")))
              {[ 0%nat := P001.mkHue 0 0 ]} 0%nat (P001.mkHue 0 0))
    as (f & b & σ' & -> & -> & _ & _ & _ & _ & Hl & He).
  - reflexivity.
  - exists σ'. split; [exact He | exact Hl].
Defined.

(** C10. In revision [part_001], for a [Hue] with [Fg] or [Bg] equal to 0,
    [Encode] writes through the pointer it is given: afterwards the
    caller's [Hue] holds [Default] in each field that was 0, so the store
    has changed at that location (and nowhere else), and every later
    [Encode] through the same pointer finds the repaired value and leaves
    it as it is. *)
Theorem C10_Encode_mutates_Hue
    (σ : gmap nat P001.Hue) (h : nat) (hv : P001.Hue) (a : arg) :
  σ !! h = Some hv →
  P001.Fg hv = 0 ∨ P001.Bg hv = 0 →
  ∃ (e : bytes) (σ' : gmap nat P001.Hue) (hv' : P001.Hue),
    P001.Encode h a σ = Some (e, σ')
    ∧ σ' !! h = Some hv'
    ∧ P001.Fg hv' = (if decide (P001.Fg hv = 0) then P001.Default else P001.Fg hv)
    ∧ P001.Bg hv' = (if decide (P001.Bg hv = 0) then P001.Default else P001.Bg hv)
    ∧ hv' ≠ hv
    ∧ (∀ h' : nat, h' ≠ h → σ' !! h' = σ !! h')
    ∧ (∀ a' : arg, ∃ e', P001.Encode h a' σ' = Some (e', σ')).
Proof.
  intros Hh Hz.
  destruct (repaired_fields hv) as [Hf Hb].
  exists (prefix001 (repaired hv) ++ payload a ++ P000.ASCIIReset),
         (<[h := repaired hv]> σ), (repaired hv).
  split; [by apply Encode001_eq|].
  split; [by rewrite lookup_insert_eq|].
  split; [done|]. split; [done|]. split; [|split].
  - intros Heq. rewrite Heq in Hf, Hb.
    destruct Hz as [Hz|Hz]; rewrite Hz in *; simpl in *; done.
  - intros h' Hne. by rewrite lookup_insert_ne.
  - intros a'. eexists.
    rewrite (Encode001_eq _ h (repaired hv)) by by rewrite lookup_insert_eq.
    by rewrite repaired_idemp, insert_insert_eq.
Qed.

Lemma C10_Encode_mutates_Hue_witness :
  ∃ e σ', P001.Encode 0 (AStr (lit "hi")) {[ 0%nat := P001.mkHue 0 P001.Red ]} = Some (e, σ')
          ∧ σ' !! 0%nat = Some (P001.mkHue P001.Default P001.Red).
Proof.
  destruct (C10_Encode_mutates_Hue {[ 0%nat := P001.mkHue 0 P001.Red ]} 0%nat
              (P001.mkHue 0 P001.Red) (AStr (lit "hi")))
    as (e & σ' & [f b] & He & Hl & Hf & Hb & _).
  - reflexivity.
  - left. reflexivity.
  - exists e, σ'. split; [exact He|]. simpl in Hf, Hb. rewrite Hl, Hf, Hb.
    reflexivity.
Defined.

End hue_laws.

Section solid_writer.
Local Open Scope byte_scope.

Lemma hue_Sprintf000_s (h : P000.hue) (p : bytes) :
  P000.hue_Sprintf h (lit "%s") (AStr p) = P000.Encode h (AStr p).
Proof.
  unfold P000.hue_Sprintf. rewrite !Encode000_eq. simpl.
  apply Sprintf_encoded_s.
Qed.

Lemma Hue_Sprintf001_s (σ : gmap nat P001.Hue) (h : nat) (hv : P001.Hue) (p : bytes) :
  σ !! h = Some hv →
  P001.Hue_Sprintf h (lit "%s") (AStr p) σ = P001.Encode h (AStr p) σ.
Proof.
  intros Hh. unfold P001.Hue_Sprintf, mbind, P001.M_bind, P001.bind.
  rewrite !(Encode001_eq σ h hv) by done. unfold P001.lift, prefix001.
  simpl payload. by rewrite Sprintf_encoded_s.
Qed.

Lemma enter_color_length (h : P000.hue) : (4 ≤ length (enter_color h))%nat.
Proof. unfold enter_color. simpl. repeat (rewrite length_app; simpl). lia. Qed.

(** C9. [Write] of the solid writer encodes the whole buffer as one
    encoded string with the bound hue, hands it to the sink in one call and
    returns what the sink returns, in both revisions. With a sink that
    reports what it took, such as a [bytes.Buffer], the count is the length
    of the encoded string, which exceeds [len(p)] by the length of the
    prefix and of the reset. *)
Theorem C9_Writer_Write_returns_sink_count (p : bytes) :
  (∀ (W : Type) (HW : io_Writer W) (w : P000.Writer) (s : W),
      ∃ e, P000.Encode (P000.Writer_hue w) (AStr p) = Some e
           ∧ P000.Writer_Write w p s = Some (io_Write e s))
  ∧ (∀ (W : Type) (HW : io_Writer W) (w : P001.Writer) (s : W)
       (σ : gmap nat P001.Hue) (hv : P001.Hue),
      σ !! P001.Writer_Hue w = Some hv →
      ∃ e σ', P001.Encode (P001.Writer_Hue w) (AStr p) σ = Some (e, σ')
              ∧ P001.Write w p s σ = Some (io_Write e s, σ'))
  ∧ (∀ (w : P000.Writer) (b : Buffer),
      ∃ e n, P000.Encode (P000.Writer_hue w) (AStr p) = Some e
             ∧ P000.Writer_Write w p b = Some ((n, None), mkBuffer (contents b ++ e))
             ∧ n = Z.of_nat (length e)
             ∧ (Z.of_nat (length p) + 8 ≤ n)%Z).
Proof.
  split; [|split].
  - intros W HW w s. eexists. split; [apply Encode000_eq|].
    unfold P000.Writer_Write. rewrite hue_Sprintf000_s, Encode000_eq. done.
  - intros W HW w s σ hv Hh. eexists _, _. split; [by apply Encode001_eq|].
    unfold P001.Write, mbind, P001.M_bind, P001.bind.
    rewrite (Hue_Sprintf001_s σ _ hv), (Encode001_eq σ _ hv) by done. done.
  - intros w b. eexists _, _. split; [apply Encode000_eq|].
    unfold P000.Writer_Write. rewrite hue_Sprintf000_s, Encode000_eq.
    split; [reflexivity|]. split; [reflexivity|].
    pose proof (enter_color_length (P000.Writer_hue w)).
    rewrite !length_app. simpl (length P000.ASCIIReset). simpl payload. lia.
Qed.

Lemma C9_Writer_Write_returns_sink_count_witness :
  ∃ e σ',
    P001.Encode 0 (AStr (lit "50% off")) {[ 0%nat := P001.mkHue P001.Green 0 ]} = Some (e, σ')
    ∧ P001.Write (P001.NewWriter 0) (lit "50% off") (mkBuffer [])
                 {[ 0%nat := P001.mkHue P001.Green 0 ]}
      = Some ((19, None, mkBuffer e), σ').
Proof.
  destruct (proj1 (proj2 (C9_Writer_Write_returns_sink_count (lit "50% off")))
              Buffer _ (P001.NewWriter 0) (mkBuffer [])
              {[ 0%nat := P001.mkHue P001.Green 0 ]} (P001.mkHue P001.Green 0))
    as (e & σ' & He & Hw).
  - reflexivity.
  - exists e, σ'. split; [exact He|]. rewrite Hw.
    rewrite (Encode001_eq _ _ (P001.mkHue P001.Green 0)) in He by reflexivity.
    injection He as <- _. reflexivity.
Defined.

End solid_writer.

(** * The regexp writer: the two maps *)
Section maps.
Local Open Scope nat_scope.
Implicit Types (hm : list nat) (rm : list (option P000.hue)) (rs : list P000.rule).

Lemma byte_of_int_small (i : nat) : i < 256 → byte_of_int i = i.
Proof. intros Hi. unfold byte_of_int. by apply Nat.mod_small. Qed.

Lemma byte_of_int_le (i : nat) : byte_of_int i ≤ i.
Proof. unfold byte_of_int. apply Nat.Div0.mod_le. Qed.

Lemma paint_seq_length (c : nat) (n a : nat) hm :
  length (foldl (λ hm j, <[j := c]> hm) hm (seq a n)) = length hm.
Proof.
  revert a hm. induction n as [|n IH]; intros a hm; simpl; [done|].
  by rewrite IH, length_insert.
Qed.

Lemma paint_seq_lookup (c : nat) (n a : nat) hm (pos : nat) :
  foldl (λ hm j, <[j := c]> hm) hm (seq a n) !! pos
  = if decide (a ≤ pos < a + n ∧ pos < length hm) then Some c else hm !! pos.
Proof.
  revert a hm. induction n as [|n IH]; intros a hm; simpl.
  - rewrite decide_False by lia. done.
  - rewrite IH, length_insert, list_lookup_insert.
    repeat case_decide; try done; lia.
Qed.

Lemma paint_length (c : nat) hm (w : nat * nat) :
  length (P000.paint c hm w) = length hm.
Proof. apply paint_seq_length. Qed.

Lemma paint_lookup (c : nat) hm (w : nat * nat) (pos : nat) :
  P000.paint c hm w !! pos
  = if decide (w.1 ≤ pos < w.2 ∧ pos < length hm) then Some c else hm !! pos.
Proof.
  unfold P000.paint. rewrite paint_seq_lookup.
  repeat case_decide; try done; lia.
Qed.

Lemma paint_all_length (c : nat) (x : list (nat * nat)) hm :
  length (foldl (P000.paint c) hm x) = length hm.
Proof.
  revert hm. induction x as [|w x IH]; intros hm; simpl; [done|].
  by rewrite IH, paint_length.
Qed.

Lemma paint_all_lookup (c : nat) (x : list (nat * nat)) hm (pos : nat) :
  pos < length hm →
  foldl (P000.paint c) hm x !! pos
  = if existsb (λ w : nat * nat, (w.1 <=? pos) && (pos <? w.2)) x
    then Some c else hm !! pos.
Proof.
  revert hm. induction x as [|w x IH]; intros hm Hpos; simpl; [done|].
  rewrite IH by by rewrite paint_length.
  destruct (existsb _ x); [by rewrite orb_true_r|].
  rewrite orb_false_r, paint_lookup.
  destruct (Nat.leb_spec w.1 pos), (Nat.ltb_spec pos w.2); simpl;
    case_decide; try done; lia.
Qed.

Lemma for_rules_length rs (p : bytes) (i : nat) hm rm :
  length (P000.for_rules rs p i hm rm).1 = length hm.
Proof.
  revert i hm rm. induction rs as [|r rs IH]; intros i hm rm; simpl; [done|].
  by rewrite IH, paint_all_length.
Qed.

Lemma last_covering_bound (i : nat) rs (p : bytes) (pos : nat) :
  last_covering i rs p pos = 0
  ∨ i ≤ last_covering i rs p pos < i + length rs.
Proof.
  revert i. induction rs as [|r rs IH]; intros i; simpl; [by left|].
  destruct (IH (S i)) as [->|Hk].
  - destruct (covered _ _ _); [right; lia|by left].
  - destruct (last_covering (S i) rs p pos); [lia|right; lia].
Qed.

(** Each entry of [huemap] is [byte(k)] for the last rule [k] that covers
    it; entries no rule covers keep what they held. *)
Lemma for_rules_lookup rs (p : bytes) (i : nat) hm rm (pos : nat) :
  1 ≤ i → pos < length hm →
  (P000.for_rules rs p i hm rm).1 !! pos
  = match last_covering i rs p pos with
    | 0 => hm !! pos
    | k => Some (byte_of_int k)
    end.
Proof.
  revert i hm rm. induction rs as [|r rs IH]; intros i hm rm Hi Hpos; simpl;
    [done|].
  rewrite IH by (rewrite ?paint_all_length; lia).
  destruct (last_covering (S i) rs p pos) as [|k]; [|done].
  rewrite paint_all_lookup by done. unfold covered.
  destruct (existsb _ _); [|done]. by destruct i; [lia|].
Qed.

Lemma for_rules_rulemap rs (p : bytes) (i : nat) hm rm :
  length rm = i + length rs →
  (P000.for_rules rs p i hm rm).2
  = take i rm ++ ((λ r, Some (P000.rule_hue r)) <$> rs).
Proof.
  revert i hm rm. induction rs as [|r rs IH]; intros i hm rm Hl; simpl in *.
  - rewrite app_nil_r, take_ge by lia. done.
  - rewrite IH by (rewrite length_insert; lia).
    rewrite (take_S_r _ _ (Some (P000.rule_hue r)))
      by (apply list_lookup_insert_eq; lia).
    rewrite take_insert_ge by lia. by rewrite <- app_assoc.
Qed.

Lemma huemap_of_length rs (p : bytes) : length (huemap_of rs p) = length p.
Proof.
  unfold huemap_of, P000.maps. by rewrite for_rules_length, length_replicate.
Qed.

Lemma rulemap_of_eq rs (p : bytes) :
  rulemap_of rs p
  = Some (P000.mkhue 0 0) :: ((λ r, Some (P000.rule_hue r)) <$> rs).
Proof.
  unfold rulemap_of, P000.maps. simpl P000.rules.
  rewrite for_rules_rulemap by (rewrite length_insert, length_replicate; lia).
  rewrite Nat.add_1_r. reflexivity.
Qed.

(** The color assignment that [Write] computes, in the words of the
    specification, up to the conversion to a byte. *)
Lemma huemap_of_lookup rs (p : bytes) (pos : nat) :
  pos < length p →
  huemap_of rs p !! pos = Some (byte_of_int (last_covering 1 rs p pos)).
Proof.
  intros Hpos. unfold huemap_of, P000.maps. simpl P000.rules.
  rewrite for_rules_lookup by (rewrite ?length_replicate; lia).
  destruct (last_covering 1 rs p pos); [|done].
  by rewrite lookup_replicate_2.
Qed.

(** With at most 255 rules the conversion loses nothing: every byte has
    the number of the last-added rule that covers it. *)
Lemma huemap_last_rule_wins rs (p : bytes) (pos : nat) :
  length rs < 256 → pos < length p →
  huemap_of rs p !! pos = Some (last_covering 1 rs p pos).
Proof.
  intros Hrs Hpos. rewrite huemap_of_lookup by done.
  rewrite byte_of_int_small; [done|].
  destruct (last_covering_bound 1 rs p pos); lia.
Qed.

(** Every entry of [huemap] has a hue in [rulemap]. *)
Lemma huemap_of_entry rs (p : bytes) (pos k : nat) :
  huemap_of rs p !! pos = Some k →
  is_Some (mjoin (rulemap_of rs p !! k)).
Proof.
  intros Hk. pose proof (lookup_lt_Some _ _ _ Hk) as Hpos.
  rewrite huemap_of_length in Hpos.
  rewrite huemap_of_lookup in Hk by done. injection Hk as <-.
  rewrite rulemap_of_eq.
  pose proof (byte_of_int_le (last_covering 1 rs p pos)) as Hle.
  destruct (last_covering_bound 1 rs p pos) as [Hz|Hb].
  - rewrite Hz. by eexists.
  - destruct (byte_of_int (last_covering 1 rs p pos)) as [|j]; [by eexists|].
    simpl. rewrite list_lookup_fmap.
    destruct (lookup_lt_is_Some_2 rs j) as [r ->]; [lia|]. by eexists.
Qed.

End maps.

(** * The regexp writer: the second loop *)
Section second_loop.
Context {W : Type} `{HW : io_Writer W}.
Local Open Scope nat_scope.
Implicit Types (hm : list nat) (rm : list (option P000.hue)).

Local Opaque Sprintf.
Local Arguments lit : simpl never.
Local Arguments P000.Fprintf : simpl never.

Lemma Fprintf_ASCIIFmt (d : P000.Dest) (th : P000.hue) (σ : P000.World W) :
  P000.Fprintf d P000.ASCIIFmt [AInt (P000.Fg th); AInt (P000.Bg th)] σ
  = Some (P000.wrapped_Write d (enter_color th) σ).
Proof. unfold P000.Fprintf. by rewrite Sprintf_ASCIIFmt. Qed.

Lemma Fprintf_c (d : P000.Dest) (c : Byte.byte) (σ : P000.World W) :
  P000.Fprintf d (lit "%c") [AByte c] σ = Some (P000.wrapped_Write d (fmt_c c) σ).
Proof. unfold P000.Fprintf. by rewrite Sprintf_c. Qed.

(** The second loop hands the chunks of [emissions] to the sink, in order,
    and stops at the first error; it does not panic. *)
Lemma range_p_write_all (d : P000.Dest) hm rm (rest : bytes) :
  ∀ (i hue : nat) (n : Z) (σ : P000.World W),
    length hm = i + length rest →
    (∀ pos k, hm !! pos = Some k → is_Some (mjoin (rm !! k))) →
    P000.range_p d hm rm i rest hue n σ
    = Some (write_all d (emissions rm (drop i hm) rest hue) n σ).
Proof.
  induction rest as [|c rest IH]; intros i hue n σ Hl Hrm.
  - simpl. by destruct (drop i hm).
  - simpl in Hl.
    destruct (lookup_lt_is_Some_2 hm i) as [k Hk]; [lia|].
    rewrite (drop_S _ _ _ Hk). simpl. rewrite Hk. simpl.
    destruct (Hrm _ _ Hk) as [th Hth].
    destruct (decide (k = hue)) as [->|Hne]; simpl.
    + rewrite Fprintf_c. simpl.
      destruct (P000.wrapped_Write d (fmt_c c) σ) as [[nb [e|]] σ2]; [done|].
      by apply IH; [lia|].
    + rewrite Hth. simpl. rewrite Fprintf_ASCIIFmt. simpl.
      destruct (P000.wrapped_Write d (enter_color th) σ) as [[nb1 [e1|]] σ1];
        [done|]. simpl.
      rewrite Fprintf_c. simpl.
      destruct (P000.wrapped_Write d (fmt_c c) σ1) as [[nb [e|]] σ2]; [done|].
      by apply IH; [lia|].
Qed.

(** [Write], as the chunks of [emissions] followed, when no write failed,
    by the reset on standard output. *)
Lemma Write_eq (rs : list P000.rule) (d : P000.Dest) (p : bytes) (σ : P000.World W) :
  P000.Write (P000.mkRegexpWriter rs d) p σ
  = Some (match write_all d (emissions (rulemap_of rs p) (huemap_of rs p) p 0) 0 σ with
          | (P000.Return n err, σ') => ((n, Some err), σ')
          | (P000.Done n, σ') => ((n, None), P000.Print P000.ASCIIReset σ')
          end).
Proof.
  unfold P000.Write.
  change (P000.maps (P000.mkRegexpWriter rs d) p)
    with (P000.maps (P000.mkRegexpWriter rs P000.ToSink) p).
  rewrite (surjective_pairing (P000.maps _ p)).
  fold (huemap_of rs p). fold (rulemap_of rs p). simpl P000.wrapped.
  rewrite range_p_write_all.
  - simpl. rewrite drop_0.
    by destruct (write_all d _ 0 σ) as [[n e|n] σ'].
  - by rewrite huemap_of_length.
  - intros pos k. apply huemap_of_entry.
Qed.

End second_loop.

(** * The regexp writer: what reaches the sink *)
Section sink_contents.
Local Open Scope nat_scope.
Implicit Types (hm : list nat) (rm : list (option P000.hue)).

Lemma write_all_Recorder (chunks : list bytes) :
  ∀ (n : Z) (out : bytes) (r : Recorder),
    ∃ n', write_all P000.ToSink chunks n (P000.mkWorld out r)
          = (P000.Done n', P000.mkWorld out (mkRecorder (calls r ++ chunks))).
Proof.
  induction chunks as [|c cs IH]; intros n out r; simpl.
  - exists n. rewrite app_nil_r. by destruct r.
  - destruct (IH (int_add n (Z.of_nat (length c))) out (mkRecorder (calls r ++ [c])))
      as [n' ->].
    exists n'. simpl. by rewrite <- app_assoc.
Qed.

Lemma write_all_Buffer (chunks : list bytes) :
  ∀ (n : Z) (out : bytes) (b : Buffer),
    ∃ n', write_all P000.ToSink chunks n (P000.mkWorld out b)
          = (P000.Done n', P000.mkWorld out (mkBuffer (contents b ++ mjoin chunks))).
Proof.
  induction chunks as [|c cs IH]; intros n out b; simpl.
  - exists n. rewrite app_nil_r. by destruct b.
  - destruct (IH (int_add n (Z.of_nat (length c))) out (mkBuffer (contents b ++ c)))
      as [n' ->].
    exists n'. simpl. by rewrite <- app_assoc.
Qed.

Lemma emissions_nil rm hm (cur : nat) : emissions rm hm [] cur = [].
Proof. by destruct hm. Qed.

(** Inside a run nothing but the bytes is written. *)
Lemma emissions_same rm hm (p1 p2 : bytes) (c : nat) :
  emissions rm (replicate (length p1) c ++ hm) (p1 ++ p2) c
  = (fmt_c <$> p1) ++ emissions rm hm p2 c.
Proof.
  induction p1 as [|b p1 IH]; simpl; [done|].
  rewrite decide_True by done. simpl. by rewrite IH.
Qed.

(** A run that starts with a change is entered by one sequence. *)
Lemma emissions_enter rm hm (p1 p2 : bytes) (c cur : nat) :
  p1 ≠ [] → c ≠ cur →
  emissions rm (replicate (length p1) c ++ hm) (p1 ++ p2) cur
  = enter_color (default (P000.mkhue 0 0) (mjoin (rm !! c)))
      :: (fmt_c <$> p1) ++ emissions rm hm p2 c.
Proof.
  intros Hp Hc. destruct p1 as [|b p1]; [done|]. simpl.
  rewrite decide_False by done. simpl. by rewrite emissions_same.
Qed.

Lemma emissions_app rm (hm1 hm2 : list nat) (p1 p2 : bytes) (cur : nat) :
  length hm1 = length p1 →
  emissions rm (hm1 ++ hm2) (p1 ++ p2) cur
  = emissions rm hm1 p1 cur ++ emissions rm hm2 p2 (default cur (last hm1)).
Proof.
  revert p1 cur. induction hm1 as [|k hm1 IH]; intros [|b p1] cur Hl;
    simplify_eq/=; [done|].
  rewrite IH by done. rewrite <- !app_assoc. simpl. do 3 f_equal.
  rewrite last_cons. by destruct (last hm1).
Qed.

Lemma is_escape_enter_color (h : P000.hue) : is_escape (enter_color h) = true.
Proof. unfold enter_color, fmt.ESC. simpl. by destruct (fmt_d (P000.Fg h)). Qed.

Lemma is_escape_fmt_c (c : Byte.byte) : is_escape (fmt_c c) = false.
Proof. by destruct c. Qed.

(** One escape sequence for each change of the color assignment. *)
Lemma escapes_emissions rm hm (p : bytes) (cur : nat) :
  length hm = length p → escapes (emissions rm hm p cur) = changes cur hm.
Proof.
  unfold escapes. revert p cur.
  induction hm as [|k hm IH]; intros [|b p] cur Hl; simplify_eq/=; [done|].
  case_decide; cbn [app].
  - rewrite filter_cons_False by (rewrite is_escape_fmt_c; intros []). by apply IH.
  - rewrite filter_cons_True by (rewrite is_escape_enter_color; exact I).
    rewrite filter_cons_False by (rewrite is_escape_fmt_c; intros []).
    simpl. f_equal. by apply IH.
Qed.

(** Bytes below 0x80 pass through [%c] as they are. *)
Lemma fmt_c_ascii (p : bytes) :
  Forall (λ c, (byte_val c < 128)%Z) p → mjoin (fmt_c <$> p) = p.
Proof.
  induction 1 as [|c p Hc _ IH]; [done|].
  change (mjoin (fmt_c <$> c :: p)) with (fmt_c c ++ mjoin (fmt_c <$> p)).
  rewrite IH. unfold fmt_c. apply Z.ltb_lt in Hc. by rewrite Hc.
Qed.

(** Without rules every entry of [huemap] is 0. *)
Lemma huemap_of_no_rules (p : bytes) : huemap_of [] p = replicate (length p) 0.
Proof. reflexivity. Qed.

Lemma emissions_no_rules (p : bytes) :
  emissions (rulemap_of [] p) (huemap_of [] p) p 0 = fmt_c <$> p.
Proof.
  rewrite huemap_of_no_rules.
  pose proof (emissions_same (rulemap_of [] p) [] p [] 0) as Hs.
  cbn [emissions] in Hs. by rewrite !app_nil_r in Hs.
Qed.

End sink_contents.

(** * The regexp writer: precedence of rules, and where the reset goes *)
Section precedence_and_reset.
Local Open Scope nat_scope.

(** C1. With 256 rules that each match the letter X, and the buffer ["X"]:
    the last-added rule whose match covers position 0 is rule 256, yet the
    color assignment that [Write] computes holds 0 there, since
    [byte(256)] is 0; the byte is written uncolored. (Up to 255 rules the
    assignment is the number of the last-added covering rule, see
    [huemap_last_rule_wins].) *)
Theorem C1_huemap_wraps_at_256_rules :
  length rules256 = 256
  ∧ last_covering 1 rules256 (lit "X") 0 = 256
  ∧ huemap_of rules256 (lit "X") = [0]
  ∧ P000.Write (P000.mkRegexpWriter rules256 P000.ToSink) (lit "X")
               (empty_world (mkRecorder []))
    = Some ((1%Z, None), P000.mkWorld P000.ASCIIReset (mkRecorder [lit "X"])).
Proof. repeat split; by vm_compute. Qed.

(** C2. A writer without rules over a sink that is not standard output:
    the sink receives the [%c] rendering of each byte and no reset
    sequence; the reset is printed on standard output instead. A byte from
    0x80 on is not passed on as it is: 0xE9 reaches the sink as the two
    bytes 0xC3 0xA9. *)
Theorem C2_no_rules_sink_gets_no_reset :
  (∀ (p out : bytes) (b : Buffer),
      ∃ n, P000.Write (P000.mkRegexpWriter [] P000.ToSink) p (P000.mkWorld out b)
           = Some ((n, None),
                   P000.mkWorld (out ++ P000.ASCIIReset)
                                (mkBuffer (contents b ++ mjoin (fmt_c <$> p)))))
  ∧ P000.Write (P000.NewRegexpWriter P000.ToSink) (lit "a") (empty_world (mkBuffer []))
    = Some ((1%Z, None), P000.mkWorld P000.ASCIIReset (mkBuffer (lit "a")))
  ∧ P000.Write (P000.NewRegexpWriter P000.ToSink) [Byte.xe9] (empty_world (mkBuffer []))
    = Some ((2%Z, None), P000.mkWorld P000.ASCIIReset (mkBuffer [Byte.xc3; Byte.xa9])).
Proof.
  split; [|split; by vm_compute].
  intros p out b. rewrite Write_eq, emissions_no_rules.
  destruct (write_all_Buffer (fmt_c <$> p) 0 out b) as [n ->].
  by exists n.
Qed.

(** C3. On the empty buffer, whatever the rules and whatever the sink, the
    sink receives nothing at all: the one reset sequence of [Write] goes to
    standard output. *)
Theorem C3_empty_input_sink_gets_nothing :
  ∀ (W : Type) (HW : io_Writer W) (rs : list P000.rule) (out : bytes) (s : W),
    P000.Write (P000.mkRegexpWriter rs P000.ToSink) [] (P000.mkWorld out s)
    = Some ((0%Z, None), P000.mkWorld (out ++ P000.ASCIIReset) s).
Proof. intros W HW rs out s. by rewrite Write_eq, emissions_nil. Qed.

(** Rule precedence on the example of the specification: R1 matches
    [[0, 5)], R2, added second, matches [[3, 8)], in a buffer of ten bytes. *)
Example precedence_example :
  huemap_of [P000.mkrule green (re_at 0 5); P000.mkrule red (re_at 3 8)]
            (lit "0123456789")
  = [1; 1; 1; 2; 2; 2; 2; 2; 0; 0].
Proof. reflexivity. Qed.

(** The end-to-end example ["aXbXc"] with the rule X: what the sink gets. *)
Example aXbXc_example :
  P000.Write (P000.mkRegexpWriter [P000.mkrule green (re_byte "X")] P000.ToSink)
             (lit "aXbXc") (empty_world (mkBuffer []))
  = Some ((33%Z, None),
          P000.mkWorld P000.ASCIIReset
            (mkBuffer (lit "a" ++ ESC :: lit "[32;49mX" ++ ESC :: lit "[0;0mb"
                         ++ ESC :: lit "[32;49mX" ++ ESC :: lit "[0;0mc"))).
Proof. by vm_compute. Qed.

(** When the wrapped sink is standard output itself, the reset does follow
    the bytes there. *)
Lemma Write_to_Stdout_no_rules :
  P000.Write (P000.NewRegexpWriter P000.ToStdout) (lit "a") (empty_world (mkBuffer []))
  = Some ((1%Z, None), P000.mkWorld (lit "a" ++ P000.ASCIIReset) (mkBuffer [])).
Proof. by vm_compute. Qed.

(** A failing sink ends [Write] at once, before any reset. *)
Lemma Write_sink_error :
  P000.Write (P000.mkRegexpWriter [P000.mkrule green (re_byte "X")] P000.ToSink)
             (lit "aXb") (empty_world (mkLimited 3 []))
  = Some ((1%Z, Some (Err 1)), P000.mkWorld [] (mkLimited 2 (lit "a"))).
Proof. by vm_compute. Qed.

End precedence_and_reset.

(** * The regexp writer: escape sequences and changes of color *)
Section transitions.
Local Open Scope nat_scope.

(** One rule with one match: 0 before the span, 1 inside, 0 after. *)
Lemma huemap_one_span (rl : P000.rule) (p : bytes) (lo hi : nat) :
  P000.FindAllIndex (P000.rule_Regexp rl) p = [(lo, hi)] →
  lo ≤ hi ≤ length p
  ∧ huemap_of [rl] p
    = replicate lo 0 ++ replicate (hi - lo) 1 ++ replicate (length p - hi) 0.
Proof.
  intros Hx.
  assert (lo ≤ hi ≤ length p) as Hr.
  { pose proof (P000.FindAllIndex_in_range (P000.rule_Regexp rl) p) as Hin.
    rewrite Hx in Hin. apply Forall_inv in Hin. exact Hin. }
  split; [done|]. apply list_eq. intros pos.
  destruct (decide (pos < length p)) as [Hpos|Hpos].
  - rewrite huemap_of_lookup by done. simpl. unfold covered. rewrite Hx. simpl.
    rewrite orb_false_r.
    destruct (Nat.leb_spec lo pos), (Nat.ltb_spec pos hi); simpl; try lia.
    + rewrite lookup_app_r by (rewrite length_replicate; lia).
      rewrite lookup_app_l by (rewrite !length_replicate; lia).
      rewrite lookup_replicate_2 by (rewrite length_replicate; lia). done.
    + rewrite lookup_app_r by (rewrite length_replicate; lia).
      rewrite lookup_app_r by (rewrite !length_replicate; lia).
      rewrite lookup_replicate_2 by (rewrite !length_replicate; lia). done.
    + rewrite lookup_app_l by (rewrite length_replicate; lia).
      rewrite lookup_replicate_2 by lia. done.
  - rewrite !lookup_ge_None_2; [done| |].
    + rewrite !length_app, !length_replicate. lia.
    + rewrite huemap_of_length. lia.
Qed.

Lemma split_at_span (p : bytes) (lo hi : nat) :
  lo ≤ hi ≤ length p →
  p = take lo p ++ slice lo hi p ++ drop hi p
  ∧ length (take lo p) = lo
  ∧ length (slice lo hi p) = hi - lo
  ∧ length (drop hi p) = length p - hi.
Proof.
  intros Hr. unfold slice. repeat split.
  - rewrite <- (take_drop lo p) at 1. f_equal.
    rewrite <- (take_drop (hi - lo) (drop lo p)) at 1. f_equal.
    rewrite drop_drop. f_equal. lia.
  - rewrite length_take. lia.
  - rewrite length_take, length_drop. lia.
  - by rewrite length_drop.
Qed.

(** The chunks for one rule with one non-empty match. *)
Lemma emissions_one_span (rl : P000.rule) (p : bytes) (lo hi : nat) :
  P000.FindAllIndex (P000.rule_Regexp rl) p = [(lo, hi)] →
  lo < hi →
  emissions (rulemap_of [rl] p) (huemap_of [rl] p) p 0
  = (fmt_c <$> take lo p)
      ++ enter_color (P000.rule_hue rl) :: (fmt_c <$> slice lo hi p)
      ++ (if decide (hi = length p) then []
          else enter_color (P000.mkhue 0 0) :: (fmt_c <$> drop hi p)).
Proof.
  intros Hx Hlt. destruct (huemap_one_span rl p lo hi Hx) as [Hr ->].
  destruct (split_at_span p lo hi Hr) as (Hp & Hl1 & Hl2 & Hl3).
  rewrite rulemap_of_eq. simpl fmap.
  set (rm := [Some (P000.mkhue 0 0); Some (P000.rule_hue rl)]).
  rewrite Hp at 2. rewrite <- Hl1 at 1. rewrite emissions_same.
  f_equal. rewrite <- Hl2 at 1.
  rewrite emissions_enter; [|intros Hn; rewrite Hn in Hl2; simpl in Hl2; lia|done].
  simpl. do 2 f_equal.
  case_decide as Hhi.
  - rewrite Hhi, Nat.sub_diag, drop_all. done.
  - pose proof (emissions_enter rm [] (drop hi p) [] 0 1) as He.
    rewrite !app_nil_r, Hl3 in He. rewrite He; [| |done].
    + reflexivity.
    + intros Hn. rewrite Hn in Hl3. simpl in Hl3. lia.
Qed.

End transitions.

(** * The regexp writer: one rule with a match among rules without *)
Section one_matching_rule.
Local Open Scope nat_scope.

Lemma last_covering_none (i : nat) (rs : list P000.rule) (p : bytes) (pos : nat) :
  Forall (λ r, covered (P000.rule_Regexp r) p pos = false) rs →
  last_covering i rs p pos = 0.
Proof.
  intros Hrs. revert i. induction Hrs as [|r rs Hr _ IH]; intros i; simpl;
    [done|].
  by rewrite IH, Hr.
Qed.

Lemma no_match_covers_nothing (rs : list P000.rule) (p : bytes) (pos : nat) :
  Forall (λ r, P000.FindAllIndex (P000.rule_Regexp r) p = []) rs →
  Forall (λ r, covered (P000.rule_Regexp r) p pos = false) rs.
Proof.
  intros Hrs. eapply Forall_impl; [exact Hrs|].
  intros r Hr. unfold covered. by rewrite Hr.
Qed.

(** Only the rule with a match can be the last one covering a byte. *)
Lemma last_covering_one (i : nat) (rs1 rs2 : list P000.rule) (rl : P000.rule)
    (p : bytes) (pos : nat) :
  1 ≤ i →
  Forall (λ r, P000.FindAllIndex (P000.rule_Regexp r) p = []) rs1 →
  Forall (λ r, P000.FindAllIndex (P000.rule_Regexp r) p = []) rs2 →
  last_covering i (rs1 ++ rl :: rs2) p pos
  = if covered (P000.rule_Regexp rl) p pos then i + length rs1 else 0.
Proof.
  intros Hi H1 H2. revert i Hi.
  induction H1 as [|r rs1 Hr _ IH]; intros i Hi; simpl.
  - rewrite last_covering_none by by apply no_match_covers_nothing.
    by rewrite Nat.add_0_r.
  - rewrite IH by lia. unfold covered at 2. rewrite Hr. simpl.
    destruct (covered (P000.rule_Regexp rl) p pos); [|done].
    by replace (i + S (length rs1)) with (S (i + length rs1)) by lia.
Qed.

(** One rule with one match among rules without a match: 0 before the span,
    the number of the rule inside, 0 after. *)
Lemma huemap_one_matching (rs1 rs2 : list P000.rule) (rl : P000.rule)
    (p : bytes) (lo hi : nat) :
  length (rs1 ++ rl :: rs2) < 256 →
  Forall (λ r, P000.FindAllIndex (P000.rule_Regexp r) p = []) rs1 →
  Forall (λ r, P000.FindAllIndex (P000.rule_Regexp r) p = []) rs2 →
  P000.FindAllIndex (P000.rule_Regexp rl) p = [(lo, hi)] →
  lo ≤ hi ≤ length p
  ∧ huemap_of (rs1 ++ rl :: rs2) p
    = replicate lo 0 ++ replicate (hi - lo) (S (length rs1))
        ++ replicate (length p - hi) 0.
Proof.
  intros Hn H1 H2 Hx.
  assert (lo ≤ hi ≤ length p) as Hr.
  { pose proof (P000.FindAllIndex_in_range (P000.rule_Regexp rl) p) as Hin.
    rewrite Hx in Hin. apply Forall_inv in Hin. exact Hin. }
  rewrite length_app in Hn. simpl in Hn.
  split; [done|]. apply list_eq. intros pos.
  destruct (decide (pos < length p)) as [Hpos|Hpos].
  - rewrite huemap_of_lookup, last_covering_one by done.
    unfold covered. rewrite Hx. simpl. rewrite orb_false_r.
    destruct (Nat.leb_spec lo pos), (Nat.ltb_spec pos hi); simpl; try lia.
    + rewrite byte_of_int_small by lia.
      rewrite lookup_app_r by (rewrite length_replicate; lia).
      rewrite lookup_app_l by (rewrite !length_replicate; lia).
      rewrite lookup_replicate_2 by (rewrite length_replicate; lia). done.
    + rewrite lookup_app_r by (rewrite length_replicate; lia).
      rewrite lookup_app_r by (rewrite !length_replicate; lia).
      rewrite lookup_replicate_2 by (rewrite !length_replicate; lia). done.
    + rewrite lookup_app_l by (rewrite length_replicate; lia).
      rewrite lookup_replicate_2 by lia. done.
  - rewrite !lookup_ge_None_2; [done| |].
    + rewrite !length_app, !length_replicate. lia.
    + rewrite huemap_of_length. lia.
Qed.

(** The chunks for one rule with one non-empty match among rules without a
    match. *)
Lemma emissions_one_matching (rs1 rs2 : list P000.rule) (rl : P000.rule)
    (p : bytes) (lo hi : nat) :
  length (rs1 ++ rl :: rs2) < 256 →
  Forall (λ r, P000.FindAllIndex (P000.rule_Regexp r) p = []) rs1 →
  Forall (λ r, P000.FindAllIndex (P000.rule_Regexp r) p = []) rs2 →
  P000.FindAllIndex (P000.rule_Regexp rl) p = [(lo, hi)] →
  lo < hi →
  emissions (rulemap_of (rs1 ++ rl :: rs2) p) (huemap_of (rs1 ++ rl :: rs2) p) p 0
  = (fmt_c <$> take lo p)
      ++ enter_color (P000.rule_hue rl) :: (fmt_c <$> slice lo hi p)
      ++ (if decide (hi = length p) then []
          else enter_color (P000.mkhue 0 0) :: (fmt_c <$> drop hi p)).
Proof.
  intros Hn H1 H2 Hx Hlt.
  destruct (huemap_one_matching rs1 rs2 rl p lo hi Hn H1 H2 Hx) as [Hr ->].
  destruct (split_at_span p lo hi Hr) as (Hp & Hl1 & Hl2 & Hl3).
  rewrite rulemap_of_eq.
  set (rm := Some (P000.mkhue 0 0)
               :: ((λ r, Some (P000.rule_hue r)) <$> rs1 ++ rl :: rs2)).
  assert (rm !! S (length rs1) = Some (Some (P000.rule_hue rl))) as Hk.
  { unfold rm. simpl. rewrite list_lookup_fmap, list_lookup_middle by done.
    done. }
  rewrite Hp at 2. rewrite <- Hl1 at 1. rewrite emissions_same.
  f_equal. rewrite <- Hl2 at 1.
  rewrite emissions_enter; [|intros Hn'; rewrite Hn' in Hl2; simpl in Hl2; lia|done].
  rewrite Hk. simpl. do 2 f_equal.
  case_decide as Hhi.
  - rewrite Hhi, Nat.sub_diag, drop_all. done.
  - pose proof (emissions_enter rm [] (drop hi p) [] 0 (S (length rs1))) as He.
    rewrite !app_nil_r, Hl3 in He. rewrite He; [| |done].
    + reflexivity.
    + intros Hn'. rewrite Hn' in Hl3. simpl in Hl3. lia.
Qed.

End one_matching_rule.

Section transition_laws.
Local Open Scope nat_scope.
Local Open Scope byte_scope.

Lemma changes_same (c k : nat) (l : list nat) :
  changes c (replicate k c ++ l) = changes c l.
Proof. induction k as [|k IH]; simpl; [done|]. by rewrite decide_True. Qed.

Lemma changes_enter (cur c k : nat) (l : list nat) :
  0 < k → c ≠ cur → changes cur (replicate k c ++ l) = S (changes c l).
Proof.
  intros Hk Hc. destruct k as [|k]; [lia|]. simpl.
  rewrite decide_False by done. by rewrite changes_same.
Qed.

(** Changes and runs: a leading run of index 0 is entered silently. *)
Lemma changes_runs (hm : list nat) :
  changes 0 hm = runs hm - (if decide (head hm = Some 0) then 1 else 0).
Proof.
  destruct hm as [|k hm]; simpl; [done|].
  destruct (decide (k = 0)) as [->|Hk].
  - rewrite decide_True by done. lia.
  - rewrite decide_False by congruence. lia.
Qed.

Lemma last_take_active (hm : list nat) (i : nat) :
  i ≤ length hm → default 0 (last (take i hm)) = active hm i.
Proof.
  destruct i as [|j]; intros Hi; simpl; [done|].
  destruct (lookup_lt_is_Some_2 hm j) as [x Hx]; [lia|].
  by rewrite (take_S_r _ _ _ Hx), last_snoc, Hx.
Qed.




End transition_laws.

Section sequence_on_change.
Local Open Scope nat_scope.
Local Open Scope byte_scope.

(** The chunks of a [Write], cut at position [i]. *)
Lemma emissions_at (rm : list (option P000.hue)) (hm : list nat) (p : bytes)
    (i k : nat) (c : Byte.byte) :
  length hm = length p → hm !! i = Some k → p !! i = Some c →
  emissions rm hm p 0
  = emissions rm (take i hm) (take i p) 0
      ++ (if decide (k = active hm i) then []
          else [enter_color (default (P000.mkhue 0 0) (mjoin (rm !! k)))])
      ++ fmt_c c :: emissions rm (drop (S i) hm) (drop (S i) p) k.
Proof.
  intros Hl Hk Hc. pose proof (lookup_lt_Some _ _ _ Hc) as Hi.
  transitivity (emissions rm (take i hm ++ k :: drop (S i) hm)
                          (take i p ++ c :: drop (S i) p) 0);
    [by rewrite !take_drop_middle|].
  rewrite emissions_app by (rewrite !length_take; lia).
  by rewrite last_take_active by lia.
Qed.

(** The claim as stated fails on the way back to index 0: after the
    matched X of ["Xa"], the sequence written before the byte a is
    [ESC [ 0 ; 0 m], the hue of index 0 under [ASCIIFmt], and not the reset
    sequence [ESC [ 0 m]. *)
Lemma C5_back_to_zero_is_not_ASCIIReset :
  huemap_of [P000.mkrule green (re_byte "X")] (lit "Xa") = [1; 0]
  ∧ P000.Write (P000.mkRegexpWriter [P000.mkrule green (re_byte "X")] P000.ToSink)
               (lit "Xa") (empty_world (mkRecorder []))
    = Some ((16%Z, None),
            P000.mkWorld P000.ASCIIReset
              (mkRecorder [ESC :: lit "[32;49m"; lit "X"; ESC :: lit "[0;0m"; lit "a"]))
  ∧ ESC :: lit "[0;0m" ≠ P000.ASCIIReset.
Proof. repeat split; by vm_compute. Qed.

(** C5, amended. With a sink that takes every chunk: whenever the color
    index [k] of position [i] differs from the index active there, the
    chunk written just before byte [i] is [ASCIIFmt] filled with the
    fields of the hue of [k]. For [k = 0] that hue is the zero hue and the
    chunk is [ESC [ 0 ; 0 m]; for a rule index, it is the hue of rule [k],
    with its fields as stored. *)
Theorem C5_sequence_on_change
    (rs : list P000.rule) (p out : bytes) (r : Recorder)
    (i k : nat) (c : Byte.byte) :
  p !! i = Some c →
  huemap_of rs p !! i = Some k →
  k ≠ active (huemap_of rs p) i →
  ∃ (th : P000.hue) (n : Z),
    rulemap_of rs p !! k = Some (Some th)
    ∧ enter_color th
      = ESC :: "[" :: fmt_d (P000.Fg th) ++ ";" :: fmt_d (P000.Bg th) ++ ["m"]
    ∧ (k = 0 → th = P000.mkhue 0 0 ∧ enter_color th = ESC :: lit "[0;0m")
    ∧ (k ≠ 0 → ∃ rl, rs !! (k - 1) = Some rl ∧ th = P000.rule_hue rl)
    ∧ P000.Write (P000.mkRegexpWriter rs P000.ToSink) p (P000.mkWorld out r)
      = Some ((n, None),
              P000.mkWorld (out ++ P000.ASCIIReset)
                (mkRecorder
                   (calls r
                    ++ emissions (rulemap_of rs p) (take i (huemap_of rs p)) (take i p) 0
                    ++ [enter_color th; fmt_c c]
                    ++ emissions (rulemap_of rs p) (drop (S i) (huemap_of rs p))
                                 (drop (S i) p) k))).
Proof.
  intros Hc Hk Hne.
  destruct (huemap_of_entry rs p i k Hk) as [th Hth].
  assert (rulemap_of rs p !! k = Some (Some th)) as Hrm.
  { destruct (rulemap_of rs p !! k) as [[?|]|]; simplify_eq/=; done. }
  destruct (write_all_Recorder
              (emissions (rulemap_of rs p) (huemap_of rs p) p 0) 0 out r)
    as [n Hw].
  exists th, n. split; [done|]. split; [done|].
  split; [|split].
  - intros ->. rewrite rulemap_of_eq in Hrm. by simplify_eq/=.
  - intros Hk0. rewrite rulemap_of_eq in Hrm.
    destruct k as [|j]; [done|]. simpl in Hrm.
    rewrite list_lookup_fmap in Hrm. replace (S j - 1) with j by lia.
    destruct (rs !! j) as [rl|]; simplify_eq/=. by exists rl.
  - rewrite Write_eq, Hw. do 4 f_equal.
    rewrite (emissions_at _ _ _ i k c) by (done || apply huemap_of_length).
    f_equal. rewrite decide_False by done. by rewrite Hth.
Qed.

Lemma C5_sequence_on_change_witness :
  ∃ n, P000.Write (P000.mkRegexpWriter [P000.mkrule green (re_byte "X")] P000.ToSink)
                  (lit "Xa") (empty_world (mkRecorder []))
       = Some ((n, None),
               P000.mkWorld P000.ASCIIReset
                 (mkRecorder [ESC :: lit "[32;49m"; lit "X"; ESC :: lit "[0;0m"; lit "a"])).
Proof.
  destruct (C5_sequence_on_change [P000.mkrule green (re_byte "X")]
              (lit "Xa") [] (mkRecorder []) 1 0 "a")
    as (th & n & _ & _ & Hz & _ & Hw).
  - reflexivity.
  - reflexivity.
  - vm_compute. lia.
  - exists n. unfold empty_world. rewrite Hw.
    destruct (Hz eq_refl) as [-> _]. reflexivity.
Defined.

End sequence_on_change.


(** * Further properties: formatting through a hue *)
Section format_through_hue.
Local Open Scope byte_scope.

(** The reset sequence after a format does not take part in its verbs. *)
Lemma Sprintf_app_reset (n : nat) :
  ∀ (f : bytes) (a : list arg),
    (length f ≤ n)%nat →
    Sprintf (f ++ P000.ASCIIReset) a = (.++ P000.ASCIIReset) <$> Sprintf f a.
Proof.
  induction n as [|n IH]; intros f a Hl.
  - destruct f; [|simpl in Hl; lia]. by destruct a.
  - destruct f as [|c f]; [by destruct a|]. simpl in Hl.
    destruct (decide (c = "%")) as [->|Hc].
    + destruct f as [|verb rest]; [by destruct a as [|[]]|]. simpl in Hl.
      assert (∀ a', Sprintf (rest ++ P000.ASCIIReset) a'
                    = (.++ P000.ASCIIReset) <$> Sprintf rest a') as IH'
        by (intros a'; apply IH; lia).
      destruct verb; try (by destruct a as [|[] ?]);
        destruct a as [|[z|s|b] a']; try reflexivity;
        simpl; rewrite IH'; destruct (Sprintf rest _); simpl;
        rewrite <- ?app_assoc; reflexivity.
    + simpl app. rewrite !Sprintf_copy, IH by (done || lia).
      by destruct (Sprintf f a).
Qed.

(** A format inside an encoding is formatted as it is on its own. *)
Lemma Sprintf_in_encoding (f b : Z) (format : bytes) (a : arg) (r : bytes) :
  Sprintf format [a] = Some r →
  Sprintf ((ESC :: "[" :: fmt_d f ++ ";" :: fmt_d b ++ ["m"])
             ++ format ++ P000.ASCIIReset) [a]
  = Some ((ESC :: "[" :: fmt_d f ++ ";" :: fmt_d b ++ ["m"])
            ++ r ++ P000.ASCIIReset).
Proof.
  intros Hr.
  rewrite Sprintf_literal, (Sprintf_app_reset (length format)), Hr; [done..|].
  repeat first [ apply Forall_cons; split; [done|]
               | apply Forall_app; split
               | apply fmt_d_no_percent
               | apply Forall_nil_2 ].
Qed.





End format_through_hue.

(** * Further properties: when decoding undoes encoding *)
Section round_trip_limits.
Local Open Scope nat_scope.
Local Open Scope byte_scope.

Lemma digits_nonempty (u : Decimal.uint) : u ≠ Nil → digits u ≠ [].
Proof. by destruct u. Qed.

Lemma fmt_d_nonempty (z : Z) : fmt_d z ≠ [].
Proof.
  unfold fmt_d. destruct z as [|q|q]; simpl; [done| |done].
  apply digits_nonempty, DecimalPos.Unsigned.to_uint_nonnil.
Qed.

Lemma enter_color_at_least_6 (h : P000.hue) : 6 ≤ length (enter_color h).
Proof.
  unfold enter_color. simpl. repeat (rewrite length_app; simpl).
  pose proof (fmt_d_nonempty (P000.Fg h)) as Hf.
  pose proof (fmt_d_nonempty (P000.Bg h)) as Hb.
  destruct (fmt_d (P000.Fg h)), (fmt_d (P000.Bg h)); simpl; try done; lia.
Qed.

(** X3. What [Decode] makes of [Encode(h, a)], for any hue and operand:
    the encoding is the prefix, the text of the operand and four bytes of
    reset; [Decode] panics when prefix and text together are shorter than 8
    bytes, and otherwise returns prefix and text without their first 8
    bytes. So it returns the text exactly when the prefix has 8 bytes; the
    prefix never has fewer than 6. *)
Theorem Decode_Encode_any_hue (h : P000.hue) (a : arg) :
  ∃ e : bytes,
    P000.Encode h a = Some e
    ∧ length e = length (enter_color h) + length (payload a) + 4
    ∧ 6 ≤ length (enter_color h)
    ∧ (length (enter_color h) + length (payload a) < 8 →
       P000.Decode e = inl (LengthError e (length e)))
    ∧ (8 ≤ length (enter_color h) + length (payload a) →
       P000.Decode e = inr (drop 8 (enter_color h ++ payload a)))
    ∧ (P000.Decode e = inr (payload a) ↔ length (enter_color h) = 8).
Proof.
  exists (enter_color h ++ payload a ++ P000.ASCIIReset).
  assert (length (enter_color h ++ payload a ++ P000.ASCIIReset)
          = length (enter_color h) + length (payload a) + 4) as Hlen
    by (rewrite !length_app; simpl; lia).
  assert (8 ≤ length (enter_color h) + length (payload a) →
          P000.Decode (enter_color h ++ payload a ++ P000.ASCIIReset)
          = inr (drop 8 (enter_color h ++ payload a))) as Hlong.
  { intros Hge. rewrite Decode_long by lia. unfold slice. f_equal.
    rewrite Hlen, app_assoc, drop_app_le by (rewrite length_app; lia).
    apply take_app_length'. rewrite length_drop, length_app. lia. }
  split; [apply Encode000_eq|]. split; [done|].
  split; [apply enter_color_at_least_6|].
  split; [|split; [done|]].
  - intros Hlt. rewrite Decode_short by lia. done.
  - split.
    + intros Hd.
      destruct (decide (8 ≤ length (enter_color h) + length (payload a)))
        as [Hge|Hlt].
      * rewrite Hlong in Hd by done.
        assert (length (drop 8 (enter_color h ++ payload a))
                = length (payload a)) as Hl by (f_equal; congruence).
        rewrite length_drop, length_app in Hl. lia.
      * rewrite Decode_short in Hd by lia. done.
    + intros H8. by apply Decode_strip.
Qed.

Lemma Decode_Encode_any_hue_witness :
  P000.Encode (P000.New 0 P000.Default) (AStr (lit "hi"))
    ≫= (λ e, Some (P000.Decode e)) = Some (inr (lit "i"))
  ∧ ∃ e, P000.Encode (P000.mkhue 0 0) (AStr []) = Some e
         ∧ P000.Decode e = inl (LengthError e 10).
Proof.
  split.
  - destruct (Decode_Encode_any_hue (P000.New 0 P000.Default) (AStr (lit "hi")))
      as (e & -> & _ & _ & _ & Hlong & _).
    simpl. rewrite Hlong; [reflexivity|]. vm_compute. lia.
  - destruct (Decode_Encode_any_hue (P000.mkhue 0 0) (AStr []))
      as (e & He & Hlen & _ & Hshort & _).
    exists e. split; [exact He|]. rewrite Hshort by (vm_compute; lia).
    rewrite Hlen. reflexivity.
Defined.

(** X4. In revision [part_001] the round trip also holds when fields of the
    [Hue] are unset: with [Fg] and [Bg] each 0 or a defined color code,
    decoding the encoding of a text gives the text back. *)
Theorem round_trip_with_unset_fields
    (σ : gmap nat P001.Hue) (h : nat) (hv : P001.Hue) (T : bytes) :
  σ !! h = Some hv →
  P001.Fg hv ∈ 0%Z :: P001.Colors →
  P001.Bg hv ∈ 0%Z :: P001.Colors →
  ∃ e σ', P001.Encode h (AStr T) σ = Some (e, σ') ∧ P001.Decode e = inr T.
Proof.
  intros Hh Hf Hb. eexists _, _. split; [by apply Encode001_eq|].
  rewrite Decode_same. apply Decode_strip; [|done].
  destruct hv as [f b]. unfold P001.Colors in *. simpl in *.
  list_cases; by vm_compute.
Qed.

Lemma round_trip_with_unset_fields_witness :
  ∃ e σ', P001.Encode 0 (AStr (lit "Test")) {[ 0 := P001.mkHue 0 0 ]} = Some (e, σ')
          ∧ P001.Decode e = inr (lit "Test").
Proof.
  apply (round_trip_with_unset_fields _ 0 (P001.mkHue 0 0)).
  - reflexivity.
  - simpl. constructor.
  - simpl. constructor.
Defined.

(** X5. The two encoders agree on set fields: for a [Hue] of [part_001]
    whose fields are both non-zero, [Encode] leaves the store as it is and
    returns the bytes that [Encode] of [part_000] returns for
    [New(Fg, Bg)]. *)
Theorem Encode_revisions_agree
    (σ : gmap nat P001.Hue) (h : nat) (f b : Z) (a : arg) :
  σ !! h = Some (P001.mkHue f b) →
  f ≠ 0%Z → b ≠ 0%Z →
  P001.Encode h a σ = (., σ) <$> P000.Encode (P000.New f b) a.
Proof.
  intros Hh Hf Hb. rewrite (Encode001_eq σ h (P001.mkHue f b)) by done.
  rewrite Encode000_eq. unfold repaired, P001.isUnset. simpl.
  rewrite (proj2 (Z.eqb_neq f 0)), (proj2 (Z.eqb_neq b 0)) by done.
  by rewrite insert_id.
Qed.

Lemma Encode_revisions_agree_witness :
  P001.Encode 0 (AStr (lit "hi")) {[ 0 := P001.mkHue 32 37 ]}
  = Some (ESC :: lit "[32;47mhi" ++ P000.ASCIIReset, {[ 0 := P001.mkHue 32 37 ]}).
Proof.
  rewrite (Encode_revisions_agree _ 0 32 37); [reflexivity|reflexivity|lia|lia].
Defined.

(** X6. [Decode] strips one prefix and one reset, not all color data: of
    two encodings written one after the other it returns the first text,
    the first reset, the second prefix and the second text. *)
Theorem Decode_of_two_encodings (f1 b1 f2 b2 : Z) (T1 T2 : bytes) :
  f1 ∈ P000.Colors → b1 ∈ P000.Colors →
  ∃ e1 e2,
    P000.Encode (P000.New f1 b1) (AStr T1) = Some e1
    ∧ P000.Encode (P000.New f2 b2) (AStr T2) = Some e2
    ∧ P000.Decode (e1 ++ e2)
      = inr (T1 ++ P000.ASCIIReset ++ enter_color (P000.New f2 b2) ++ T2).
Proof.
  intros Hf Hb. eexists _, _.
  split; [apply Encode000_eq|]. split; [apply Encode000_eq|].
  simpl payload.
  replace ((enter_color (P000.New f1 b1) ++ T1 ++ P000.ASCIIReset)
             ++ enter_color (P000.New f2 b2) ++ T2 ++ P000.ASCIIReset)
    with (enter_color (P000.New f1 b1)
            ++ (T1 ++ P000.ASCIIReset ++ enter_color (P000.New f2 b2) ++ T2)
            ++ P000.ASCIIReset)
    by (by rewrite <- !app_assoc).
  apply Decode_strip; [by apply color000_prefix|done].
Qed.

Lemma Decode_of_two_encodings_witness :
  ∃ e1 e2,
    P000.Encode (P000.New 31 39) (AStr (lit "a")) = Some e1
    ∧ P000.Encode (P000.New 32 39) (AStr (lit "b")) = Some e2
    ∧ P000.Decode (e1 ++ e2) = inr (lit "a" ++ ESC :: lit "[0m" ++ ESC :: lit "[32;49mb").
Proof.
  destruct (Decode_of_two_encodings 31 39 32 39 (lit "a") (lit "b"))
    as (e1 & e2 & H1 & H2 & Hd).
  - unfold P000.Colors. repeat constructor.
  - unfold P000.Colors. repeat constructor.
  - exists e1, e2. repeat split; [exact H1|exact H2|]. rewrite Hd. reflexivity.
Defined.

End round_trip_limits.

(** * Further properties: building hues, the name table, bound writers *)
Section hues_and_names.
Local Open Scope Z_scope.

Lemma wrap64_small (z : Z) : - 2 ^ 63 ≤ z < 2 ^ 63 → wrap64 z = z.
Proof. intros Hz. unfold wrap64. rewrite Z.mod_small; lia. Qed.

Lemma wrap64_shift_ne (x : Z) : wrap64 (x + 10) ≠ x.
Proof.
  unfold wrap64. intros Hx.
  pose proof (Z.div_mod (x + 10 + 2 ^ 63) (2 ^ 64)) as Hd.
  change (2 ^ 64) with 18446744073709551616 in *.
  change (2 ^ 63) with 9223372036854775808 in *.
  lia.
Qed.

(** X7. Setters and getters of a hue: [SetFg] and [Fg] are inverse and
    leave the background alone; [SetBg] stores its argument plus 10 and
    leaves the foreground alone, so [Bg] returns the code plus 10 and
    [h.SetBg(h.Bg())] never gives [h] back; [New(fg, bg)] holds [fg] and
    [bg + 10]. *)
Theorem SetBg_stores_code_plus_10 (h : P000.hue) (c fg : Z) :
  - 2 ^ 63 ≤ c + 10 < 2 ^ 63 →
  P000.Fg (P000.SetFg h c) = c
  ∧ P000.Bg (P000.SetFg h c) = P000.Bg h
  ∧ P000.Fg (P000.SetBg h c) = P000.Fg h
  ∧ P000.Bg (P000.SetBg h c) = c + 10
  ∧ P000.SetBg h (P000.Bg h) ≠ h
  ∧ P000.Fg (P000.New fg c) = fg
  ∧ P000.Bg (P000.New fg c) = c + 10.
Proof.
  intros Hc. unfold P000.Fg, P000.Bg, P000.New, P000.SetFg, P000.SetBg, int_add.
  simpl. rewrite wrap64_small by done. repeat split.
  destruct h as [f b]. simpl. intros Heq. injection Heq as Heq.
  by apply wrap64_shift_ne in Heq.
Qed.

Lemma SetBg_stores_code_plus_10_witness :
  P000.Bg (P000.SetBg (P000.New P000.Red P000.Blue) P000.White) = 47.
Proof.
  destruct (SetBg_stores_code_plus_10 (P000.New P000.Red P000.Blue) P000.White 0)
    as (_ & _ & _ & H & _).
  - unfold P000.White. lia.
  - rewrite H. reflexivity.
Defined.

Lemma Names001_elem (k : string) (v : Z) :
  P001.Names !! k = Some v →
  (k, v) ∈ [("Black"%string, 30); ("Red"%string, 31); ("Green"%string, 32);
            ("Brown"%string, 33); ("Blue"%string, 34); ("Magenta"%string, 35);
            ("Cyan"%string, 36); ("White"%string, 37); ("Default"%string, 38)].
Proof. intros Hk. by apply elem_of_list_to_map_2 in Hk. Qed.

Lemma Names000_elem (k : string) (v : Z) :
  P000.Names !! k = Some v →
  (k, v) ∈ [("Black"%string, 30); ("Red"%string, 31); ("Green"%string, 32);
            ("Brown"%string, 33); ("Blue"%string, 34); ("Magenta"%string, 35);
            ("Cyan"%string, 36); ("White"%string, 37); ("Default"%string, 39)].
Proof. intros Hk. by apply elem_of_list_to_map_2 in Hk. Qed.

End hues_and_names.

(** Case analysis on membership of a pair in an explicit list. *)
Ltac pair_cases :=
  repeat match goal with
         | H : _ ∈ [] |- _ => by apply elem_of_nil in H
         | H : (_, _) ∈ _ :: _ |- _ =>
             apply elem_of_cons in H as [H|H]; [simplify_eq|]
         end.

Section name_table.
Local Open Scope Z_scope.

Lemma Names001_Colors (k : string) (v : Z) :
  P001.Names !! k = Some v → v ∈ P001.Colors.
Proof.
  intros Hk%Names001_elem. unfold P001.Colors.
  pair_cases; repeat constructor.
Qed.

(** X8. The name table: every name of [Names] maps to a defined color
    code, names map to distinct codes, and every defined code has a name,
    but for [Underline] in [part_000], which has none. *)
Theorem Names_codes :
  (∀ k v, P001.Names !! k = Some v → v ∈ P001.Colors)
  ∧ (∀ v, v ∈ P001.Colors → ∃ k, P001.Names !! k = Some v)
  ∧ (∀ k1 k2 v, P001.Names !! k1 = Some v → P001.Names !! k2 = Some v → k1 = k2)
  ∧ (∀ k v, P000.Names !! k = Some v → v ∈ P000.Colors ∧ v ≠ P000.Underline)
  ∧ (∀ v, v ∈ P000.Colors → v ≠ P000.Underline → ∃ k, P000.Names !! k = Some v)
  ∧ (∀ k1 k2 v, P000.Names !! k1 = Some v → P000.Names !! k2 = Some v → k1 = k2).
Proof.
  split; [apply Names001_Colors|]. split; [|split; [|split; [|split]]].
  - unfold P001.Colors. intros v Hv. list_cases;
      [by exists "Black"%string|by exists "Red"%string|by exists "Green"%string
      |by exists "Brown"%string|by exists "Blue"%string|by exists "Magenta"%string
      |by exists "Cyan"%string|by exists "White"%string|by exists "Default"%string].
  - intros k1 k2 v H1%Names001_elem H2%Names001_elem.
    pair_cases; done.
  - intros k v Hk%Names000_elem. unfold P000.Colors, P000.Underline.
    pair_cases; (split; [repeat constructor|done]).
  - unfold P000.Colors. intros v Hv Hu. list_cases;
      [by exists "Black"%string|by exists "Red"%string|by exists "Green"%string
      |by exists "Brown"%string|by exists "Blue"%string|by exists "Magenta"%string
      |by exists "Cyan"%string|by exists "White"%string|done
      |by exists "Default"%string].
  - intros k1 k2 v H1%Names000_elem H2%Names000_elem.
    pair_cases; done.
Qed.

Lemma Names_codes_witness : 32 ∈ P001.Colors ∧ 39 ∈ P000.Colors.
Proof.
  destruct Names_codes as (H1 & _ & _ & H0 & _). split.
  - apply (H1 "Green"%string). reflexivity.
  - apply (H0 "Default"%string). reflexivity.
Defined.

End name_table.

(** * Further properties: the test, and writers bound to a hue *)
Section test_and_writers.
Local Open Scope Z_scope.

Lemma for_each_keeps {A} (P : A → Prop) (f : nat → A → bool → P001.M bool) :
  (∀ i x σ, P x → Test.test_store σ →
            ∃ σ', f i x false σ = Some (false, σ') ∧ Test.test_store σ') →
  ∀ l i σ, Forall P l → Test.test_store σ →
           ∃ σ', Test.for_each l i f false σ = Some (false, σ') ∧ Test.test_store σ'.
Proof.
  intros Hf l. induction l as [|x l IH]; intros i σ Hl Hσ.
  - exists σ. by split.
  - apply Forall_cons in Hl as [Hx Hl].
    destruct (Hf i x σ Hx Hσ) as (σ1 & Hfx & Hσ1).
    destruct (IH (S i) σ1 Hl Hσ1) as (σ2 & Hrest & Hσ2).
    exists σ2. split; [|done]. simpl.
    unfold mbind, P001.M_bind, P001.bind. by rewrite Hfx.
Qed.

Lemma body_keeps (u : bytes) (v w : Z) (σ : gmap nat P001.Hue) :
  v ∈ P001.Colors → w ∈ P001.Colors → Test.test_store σ →
  ∃ σ', Test.body 0 u v w false σ = Some (false, σ') ∧ Test.test_store σ'.
Proof.
  intros Hv Hw (hv & -> & Hf & Hb).
  assert (P001.Decode (prefix001 (repaired hv) ++ u ++ P000.ASCIIReset) = inr u)
    as Hd.
  { rewrite Decode_same. apply Decode_strip; [|done].
    destruct hv as [f b]. unfold P001.Colors in *. simpl in *.
    list_cases; by vm_compute. }
  exists {[ 0%nat := P001.mkHue w v ]}. split.
  - unfold Test.body, Test.Decode_M, mbind, P001.M_bind, P001.bind.
    rewrite (Encode001_eq _ 0%nat hv) by apply lookup_singleton_eq.
    cbn [payload]. rewrite Hd.
    unfold P001.lift, P001.store_Fg, P001.store_Bg, P001.ret.
    cbn [fmap option_fmap option_map]. rewrite decide_False by (by intros []).
    rewrite (lookup_insert_eq (M:=gmap nat)). cbn [P001.Fg P001.Bg].
    rewrite (lookup_insert_eq (M:=gmap nat)). cbn [P001.Fg P001.Bg].
    by rewrite !(insert_insert_eq (M:=gmap nat)), (insert_singleton_eq (M:=gmap nat)).
  - exists (P001.mkHue w v). simpl. split; [done|].
    split; by apply list_elem_of_further.
Qed.

Lemma Names001_orders (l : list Z) :
  Forall (λ v, ∃ k, P001.Names !! k = Some v) l → Forall (λ v, v ∈ P001.Colors) l.
Proof.
  intros H. eapply Forall_impl; [exact H|]. intros v [k Hk]. by eapply Names001_Colors.
Qed.

(** X9. [TestEncodeDecode] of [hue_test.go] cannot fail against [part_001]:
    whatever the test inputs, and whatever order each [range Names] loop
    yields the codes of [Names] in (the order may differ every time one of
    the two loops is entered), no decoded string differs from its input
    and no [Decode] panics. *)
Theorem TestEncodeDecode_passes (testInputs : list bytes)
    (range_v : nat → list Z) (range_w : nat → nat → list Z) :
  (∀ i, Forall (λ v, ∃ k, P001.Names !! k = Some v) (range_v i)) →
  (∀ i j, Forall (λ w, ∃ k, P001.Names !! k = Some w) (range_w i j)) →
  Test.TestEncodeDecode testInputs range_v range_w = Some false.
Proof.
  intros Hv Hw. unfold Test.TestEncodeDecode.
  destruct (for_each_keeps (λ _ : bytes, True)
              (λ i u, Test.for_each (range_v i) 0 (λ j v,
                        Test.for_each (range_w i j) 0 (λ _ w, Test.body 0 u v w))))
    with (l := testInputs) (i := 0%nat)
         (σ := ({[ 0%nat := P001.mkHue 0 0 ]} : gmap nat P001.Hue))
    as (σ' & -> & _); [| |by exists (P001.mkHue 0 0); repeat split; simpl; constructor|done].
  - intros i u σ _ Hσ.
    apply (for_each_keeps (λ v, v ∈ P001.Colors)); [|by apply Names001_orders|done].
    intros j v σ1 Hv1 Hσ1.
    apply (for_each_keeps (λ w, w ∈ P001.Colors)); [|by apply Names001_orders|done].
    intros k w σ2 Hw2 Hσ2. by apply body_keeps.
  - by apply Forall_true.
Qed.

(** The five inputs of the test, with orders that differ from one entry of
    a loop to the next. *)
Lemma TestEncodeDecode_passes_witness :
  Test.TestEncodeDecode Test.testInputs
    (λ i, if Nat.even i then [38; 30; 37] else [37; 38; 30])
    (λ i j, if Nat.even (i + j) then [31; 38] else [38; 31])
  = Some false.
Proof.
  apply TestEncodeDecode_passes.
  - intros i. destruct (Nat.even i); repeat constructor;
      solve [by exists "Default"%string|by exists "Black"%string|by exists "White"%string].
  - intros i j. destruct (Nat.even (i + j)); repeat constructor;
      solve [by exists "Red"%string|by exists "Default"%string].
Defined.

(** X10. A [Writer] of [part_001] is bound to the [Hue] object, not to a
    copy of it: after [h.Fg = c] through the same pointer, the writer
    encodes with [c]. *)
Theorem Writer_follows_its_Hue {W : Type} `{HW : io_Writer W}
    (σ σ1 : gmap nat P001.Hue) (h : nat) (hv : P001.Hue) (c : Z) (p : bytes) (s : W) :
  σ !! h = Some hv →
  c ≠ 0 → P001.Bg hv ≠ 0 →
  P001.store_Fg h c σ = Some (tt, σ1) →
  P001.Write (P001.NewWriter h) p s σ1
  = Some (io_Write (prefix001 (P001.mkHue c (P001.Bg hv)) ++ p ++ P000.ASCIIReset) s, σ1).
Proof.
  intros Hh Hc Hb Hst. unfold P001.store_Fg in Hst. rewrite Hh in Hst.
  injection Hst as <-.
  unfold P001.Write, mbind, P001.M_bind, P001.bind. simpl P001.Writer_Hue.
  rewrite (Hue_Sprintf001_s _ _ (P001.mkHue c (P001.Bg hv)))
    by apply lookup_insert_eq.
  rewrite (Encode001_eq _ _ (P001.mkHue c (P001.Bg hv)))
    by apply lookup_insert_eq.
  unfold repaired, P001.isUnset. simpl.
  rewrite (proj2 (Z.eqb_neq c 0)), (proj2 (Z.eqb_neq (P001.Bg hv) 0)) by done.
  by rewrite insert_insert_eq.
Qed.

Lemma Writer_follows_its_Hue_witness :
  P001.Write (P001.NewWriter 0) (lit "hi") (mkBuffer [])
             {[ 0%nat := P001.mkHue P001.Blue P001.White ]}
  = Some ((14, None, mkBuffer (ESC :: lit "[34;47mhi" ++ ESC :: lit "[0m")),
          {[ 0%nat := P001.mkHue P001.Blue P001.White ]}).
Proof.
  rewrite (Writer_follows_its_Hue {[ 0%nat := P001.mkHue P001.Green P001.White ]}
             _ 0%nat (P001.mkHue P001.Green P001.White) P001.Blue);
    [reflexivity|reflexivity|unfold P001.Blue; lia|simpl; unfold P001.White; lia
    |reflexivity].
Defined.

(** X11. What a solid writer of [part_000] puts in an empty buffer decodes
    to the bytes that were written, for every hue of defined colors set with
    [SetHue]; [WriteString] does the same. *)
Theorem Writer_output_decodes (h0 : P000.hue) (f b : Z) (p : bytes) :
  f ∈ P000.Colors → b ∈ P000.Colors →
  ∃ n e,
    P000.Writer_Write (P000.SetHue (P000.NewWriter h0) (P000.New f b)) p (mkBuffer [])
    = Some ((n, None), mkBuffer e)
    ∧ P000.Writer_WriteString (P000.SetHue (P000.NewWriter h0) (P000.New f b)) p
                              (mkBuffer [])
      = Some ((n, None), mkBuffer e)
    ∧ P000.Decode e = inr p.
Proof.
  intros Hf Hb.
  exists (Z.of_nat (length (enter_color (P000.New f b) ++ p ++ P000.ASCIIReset))),
         (enter_color (P000.New f b) ++ p ++ P000.ASCIIReset).
  assert (P000.Writer_Write (P000.SetHue (P000.NewWriter h0) (P000.New f b)) p
                            (mkBuffer [])
          = Some ((Z.of_nat (length (enter_color (P000.New f b) ++ p ++ P000.ASCIIReset)),
                   None),
                  mkBuffer (enter_color (P000.New f b) ++ p ++ P000.ASCIIReset))) as Hw.
  { unfold P000.Writer_Write. simpl P000.Writer_hue.
    by rewrite hue_Sprintf000_s, Encode000_eq. }
  split; [done|]. split; [done|].
  apply Decode_strip; [by apply color000_prefix|done].
Qed.

Lemma Writer_output_decodes_witness :
  ∃ n e,
    P000.Writer_Write (P000.SetHue (P000.NewWriter red) green) (lit "Green") (mkBuffer [])
    = Some ((n, None), mkBuffer e)
    ∧ P000.Decode e = inr (lit "Green").
Proof.
  destruct (Writer_output_decodes red P000.Green P000.Default (lit "Green"))
    as (n & e & Hw & _ & Hd).
  - unfold P000.Colors. repeat constructor.
  - unfold P000.Colors. repeat constructor.
  - exists n, e. split; [exact Hw|exact Hd].
Defined.

End test_and_writers.

(** * Further properties: the regexp writer and its sinks *)
Section writer_and_sinks.
Local Open Scope nat_scope.

Lemma wrap64_add_l (a b : Z) : wrap64 (wrap64 a + b) = wrap64 (a + b).
Proof.
  unfold wrap64.
  replace ((a + 2 ^ 63) mod 2 ^ 64 - 2 ^ 63 + b + 2 ^ 63)%Z
    with ((a + 2 ^ 63) mod 2 ^ 64 + b)%Z by lia.
  rewrite Z.add_mod_idemp_l by done. do 2 f_equal. lia.
Qed.

Lemma wrap64_idemp (a : Z) : wrap64 (wrap64 a) = wrap64 a.
Proof.
  pose proof (wrap64_add_l a 0) as Hw. by rewrite !Z.add_0_r in Hw.
Qed.

(** The count after a list of chunks was taken whole. *)
Lemma count_chunks (cs : list bytes) (n : Z) :
  wrap64 n = n →
  foldl (λ n c, int_add n (Z.of_nat (length c))) n cs
  = wrap64 (n + Z.of_nat (length (mjoin cs))).
Proof.
  revert n. induction cs as [|c cs IH]; intros n Hn; simpl.
  - by rewrite Z.add_0_r.
  - rewrite IH by apply wrap64_idemp.
    unfold int_add. rewrite wrap64_add_l, length_app. f_equal. lia.
Qed.

Lemma write_all_Recorder_count (cs : list bytes) :
  ∀ (n : Z) (out : bytes) (r : Recorder),
    write_all P000.ToSink cs n (P000.mkWorld out r)
    = (P000.Done (foldl (λ n c, int_add n (Z.of_nat (length c))) n cs),
       P000.mkWorld out (mkRecorder (calls r ++ cs))).
Proof.
  induction cs as [|c cs IH]; intros n out r; simpl.
  - rewrite app_nil_r. by destruct r.
  - rewrite IH. simpl. by rewrite <- app_assoc.
Qed.

Lemma write_all_Buffer_count (cs : list bytes) :
  ∀ (n : Z) (out : bytes) (b : Buffer),
    write_all P000.ToSink cs n (P000.mkWorld out b)
    = (P000.Done (foldl (λ n c, int_add n (Z.of_nat (length c))) n cs),
       P000.mkWorld out (mkBuffer (contents b ++ mjoin cs))).
Proof.
  induction cs as [|c cs IH]; intros n out b; simpl.
  - rewrite app_nil_r. by destruct b.
  - rewrite IH. simpl. by rewrite <- app_assoc.
Qed.

Lemma write_all_Stdout_count {W : Type} `{HW : io_Writer W} (cs : list bytes) :
  ∀ (n : Z) (out : bytes) (s : W),
    write_all P000.ToStdout cs n (P000.mkWorld out s)
    = (P000.Done (foldl (λ n c, int_add n (Z.of_nat (length c))) n cs),
       P000.mkWorld (out ++ mjoin cs) s).
Proof.
  induction cs as [|c cs IH]; intros n out s; simpl.
  - by rewrite app_nil_r.
  - unfold P000.Stdout_Write. simpl. rewrite IH. by rewrite <- app_assoc.
Qed.

(** Writes to the wrapped sink leave standard output alone. *)
Lemma write_all_keeps_Stdout {W : Type} `{HW : io_Writer W} (cs : list bytes) :
  ∀ (n : Z) (σ : P000.World W),
    P000.os_Stdout (write_all P000.ToSink cs n σ).2 = P000.os_Stdout σ.
Proof.
  induction cs as [|c cs IH]; intros n σ; simpl; [done|].
  destruct (io_Write c (P000.sink σ)) as [[nb [e|]] s]; simpl; [done|].
  by rewrite IH.
Qed.

Lemma emissions_payload (rm : list (option P000.hue)) (hm : list nat) (p : bytes) :
  ∀ cur, length hm = length p →
    filter (λ c, ¬ is_escape c) (emissions rm hm p cur) = fmt_c <$> p.
Proof.
  revert p. induction hm as [|k hm IH]; intros [|b p] cur Hl; simplify_eq/=;
    [done|].
  case_decide; cbn [app].
  - rewrite filter_cons_True by (rewrite is_escape_fmt_c; intros []).
    f_equal. by apply IH.
  - rewrite filter_cons_False
      by (rewrite is_escape_enter_color; intros Hn; by apply Hn).
    rewrite filter_cons_True by (rewrite is_escape_fmt_c; intros []).
    f_equal. by apply IH.
Qed.

Lemma mjoin_cons_length (x : bytes) (l : list bytes) :
  length (mjoin (x :: l)) = length x + length (mjoin l).
Proof. change (mjoin (x :: l)) with (x ++ mjoin l). apply length_app. Qed.

Lemma emissions_at_least (rm : list (option P000.hue)) (hm : list nat) (p : bytes) :
  ∀ cur, length hm = length p →
    length p ≤ length (mjoin (emissions rm hm p cur)).
Proof.
  revert p. induction hm as [|k hm IH]; intros [|b p] cur Hl; simplify_eq/=;
    [done|].
  specialize (IH p k Hl).
  assert (1 ≤ length (fmt_c b)) by (destruct b; simpl; lia).
  case_decide; cbn [app]; rewrite !mjoin_cons_length; lia.
Qed.

End writer_and_sinks.

Section writer_laws.
Local Open Scope nat_scope.

Lemma for_rules_ptr_set (rs : list P000.rule) (p : bytes) (i : nat)
    (hm : list nat) (rm : list (option P000.hue)) :
  P000.for_rules_ptr (P000.rule_set <$> rs) p i hm rm
  = Some (P000.for_rules rs p i hm rm).
Proof.
  revert i hm rm. induction rs as [|r rs IH]; intros i hm rm; [done|].
  simpl. apply IH.
Qed.

Lemma Write_ptr_set {W : Type} `{HW : io_Writer W}
    (rs : list P000.rule) (d : P000.Dest) (p : bytes) (σ : P000.World W) :
  P000.Write_ptr (P000.rule_set <$> rs) d p σ
  = P000.Write (P000.mkRegexpWriter rs d) p σ.
Proof.
  unfold P000.Write_ptr, P000.maps_ptr, P000.Write, P000.maps.
  rewrite for_rules_ptr_set, length_fmap. simpl P000.rules. simpl P000.wrapped.
  cbn [mbind option_bind].
  by destruct (P000.for_rules rs p 1 _ _).
Qed.

Lemma rules_all_set (rs : list P000.rule_ptr) :
  Forall (λ r, is_Some (P000.ptr_hue r) ∧ is_Some (P000.ptr_Regexp r)) rs →
  ∃ rs' : list P000.rule, rs = P000.rule_set <$> rs'.
Proof.
  induction 1 as [|r rs [[h Hh] [re Hre]] _ [rs' ->]]; [by exists []|].
  exists (P000.mkrule h re :: rs'). destruct r as [oh ore]. simpl in *.
  by subst.
Qed.

Lemma for_rules_ptr_nil_Regexp (rs : list P000.rule_ptr) (p : bytes) (i : nat)
    (hm : list nat) (rm : list (option P000.hue)) :
  Exists (λ r, P000.ptr_Regexp r = None) rs →
  P000.for_rules_ptr rs p i hm rm = None.
Proof.
  intros He. revert i hm rm.
  induction He as [r rs Hr|r rs _ IH]; intros i hm rm; simpl.
  - by rewrite Hr.
  - destruct (P000.ptr_Regexp r); [apply IH|done].
Qed.



(** X13. The reset is printed exactly when no write failed: for every sink
    other than standard output, a [Write] that returns an error leaves
    standard output as it was, and a [Write] that returns none has appended
    [ASCIIReset] to it and nothing else. *)
Theorem Write_resets_iff_no_error {W : Type} `{HW : io_Writer W}
    (rs : list P000.rule) (p : bytes) (σ σ' : P000.World W)
    (n : Z) (err : option error) :
  P000.Write (P000.mkRegexpWriter rs P000.ToSink) p σ = Some ((n, err), σ') →
  P000.os_Stdout σ'
  = P000.os_Stdout σ ++ (if err is Some _ then [] else P000.ASCIIReset).
Proof.
  rewrite Write_eq. intros Hw. injection Hw as Hw.
  pose proof (write_all_keeps_Stdout
                (emissions (rulemap_of rs p) (huemap_of rs p) p 0) 0%Z σ) as Hk.
  destruct (write_all P000.ToSink _ 0%Z σ) as [[n1 e1|n1] σ1];
    simplify_eq/=; [by rewrite app_nil_r|by rewrite Hk].
Qed.

Lemma Write_resets_iff_no_error_witness :
  P000.os_Stdout (P000.mkWorld (lit "$ ") (mkLimited 2 (lit "a")))
  = lit "$ " ++ [].
Proof.
  apply (Write_resets_iff_no_error [P000.mkrule green (re_byte "X")] (lit "aXb")
           (P000.mkWorld (lit "$ ") (mkLimited 3 [])) _ 1%Z (Some (Err 1))).
  reflexivity.
Defined.

(** X14. The count that [Write] returns: with a [bytes.Buffer] as sink it
    is the number of bytes that reached the sink, escape sequences
    included and the reset not, as an [int]; that number is never less than
    [len(p)]. *)
Theorem Write_count_is_bytes_to_sink
    (rs : list P000.rule) (p out : bytes) (b : Buffer) :
  ∃ (n : Z) (e : bytes),
    P000.Write (P000.mkRegexpWriter rs P000.ToSink) p (P000.mkWorld out b)
    = Some ((n, None),
            P000.mkWorld (out ++ P000.ASCIIReset) (mkBuffer (contents b ++ e)))
    ∧ n = wrap64 (Z.of_nat (length e))
    ∧ length p ≤ length e
    ∧ ((Z.of_nat (length e) < 2 ^ 63)%Z → n = Z.of_nat (length e)).
Proof.
  eexists _, (mjoin (emissions (rulemap_of rs p) (huemap_of rs p) p 0)).
  split; [by rewrite Write_eq, write_all_Buffer_count|].
  split; [by rewrite count_chunks by done|].
  split; [apply emissions_at_least, huemap_of_length|].
  intros Hlt. rewrite count_chunks by done. apply wrap64_small. lia.
Qed.

Lemma Write_count_is_bytes_to_sink_witness :
  ∃ e, P000.Write (P000.mkRegexpWriter [P000.mkrule green (re_byte "X")] P000.ToSink)
                  (lit "aX") (empty_world (mkBuffer []))
       = Some ((10%Z, None), P000.mkWorld P000.ASCIIReset (mkBuffer e))
       ∧ length e = 10.
Proof.
  destruct (Write_count_is_bytes_to_sink [P000.mkrule green (re_byte "X")]
              (lit "aX") [] (mkBuffer [])) as (n & e & Hw & _ & _ & Hn).
  assert (e = lit "a" ++ fmt.ESC :: lit "[32;49mX") as ->.
  { vm_compute in Hw. by injection Hw. }
  exists (lit "a" ++ fmt.ESC :: lit "[32;49mX"). split; [|reflexivity].
  unfold empty_world. rewrite Hw, Hn; [reflexivity|]. vm_compute. reflexivity.
Defined.

(** X15. No payload byte is lost, added or moved: the chunks that a
    recording sink receives, without the escape sequences, are the [%c]
    renderings of the bytes of [p] in order; for bytes below 0x80 their
    concatenation is [p] itself. *)
Theorem Write_keeps_the_payload
    (rs : list P000.rule) (p out : bytes) (r : Recorder) :
  ∃ (n : Z) (cs : list bytes),
    P000.Write (P000.mkRegexpWriter rs P000.ToSink) p (P000.mkWorld out r)
    = Some ((n, None),
            P000.mkWorld (out ++ P000.ASCIIReset) (mkRecorder (calls r ++ cs)))
    ∧ filter (λ c, ¬ is_escape c) cs = fmt_c <$> p
    ∧ (Forall (λ c, (byte_val c < 128)%Z) p →
       mjoin (filter (λ c, ¬ is_escape c) cs) = p).
Proof.
  eexists _, (emissions (rulemap_of rs p) (huemap_of rs p) p 0).
  split; [by rewrite Write_eq, write_all_Recorder_count|].
  rewrite emissions_payload by apply huemap_of_length.
  split; [done|]. apply fmt_c_ascii.
Qed.

Lemma Write_keeps_the_payload_witness :
  ∃ n cs,
    P000.Write (P000.mkRegexpWriter [P000.mkrule green (re_byte "X")] P000.ToSink)
               (lit "aXb") (empty_world (mkRecorder []))
    = Some ((n, None), P000.mkWorld P000.ASCIIReset (mkRecorder cs))
    ∧ mjoin (filter (λ c, ¬ is_escape c) cs) = lit "aXb".
Proof.
  destruct (Write_keeps_the_payload [P000.mkrule green (re_byte "X")]
              (lit "aXb") [] (mkRecorder [])) as (n & cs & Hw & _ & Ha).
  exists n, cs. split; [exact Hw|]. apply Ha.
  repeat constructor.
Defined.

(** X16. The stream does not depend on the sink: the chunks a recording
    sink receives, concatenated, are what a [bytes.Buffer] receives, with
    the same count; and when the wrapped sink is [os.Stdout] itself, the
    same bytes are printed there, followed by the reset. *)
Theorem Write_same_stream_for_every_sink (rs : list P000.rule) (p : bytes) :
  ∃ (n : Z) (cs : list bytes),
    (∀ (out : bytes) (r : Recorder),
        P000.Write (P000.mkRegexpWriter rs P000.ToSink) p (P000.mkWorld out r)
        = Some ((n, None),
                P000.mkWorld (out ++ P000.ASCIIReset) (mkRecorder (calls r ++ cs))))
    ∧ (∀ (out : bytes) (b : Buffer),
        P000.Write (P000.mkRegexpWriter rs P000.ToSink) p (P000.mkWorld out b)
        = Some ((n, None),
                P000.mkWorld (out ++ P000.ASCIIReset)
                             (mkBuffer (contents b ++ mjoin cs))))
    ∧ (∀ (W : Type) (HW : io_Writer W) (out : bytes) (s : W),
        P000.Write (P000.mkRegexpWriter rs P000.ToStdout) p (P000.mkWorld out s)
        = Some ((n, None),
                P000.mkWorld (out ++ mjoin cs ++ P000.ASCIIReset) s)).
Proof.
  eexists _, (emissions (rulemap_of rs p) (huemap_of rs p) p 0).
  split; [|split].
  - intros out r. by rewrite Write_eq, write_all_Recorder_count.
  - intros out b. by rewrite Write_eq, write_all_Buffer_count.
  - intros W HW out s. rewrite Write_eq, write_all_Stdout_count.
    unfold P000.Print, P000.Stdout_Write. simpl. by rewrite <- app_assoc.
Qed.

End writer_laws.

(** * Further properties: adding and flushing rules *)
Section rule_management.
Local Open Scope nat_scope.

Lemma last_covering_snoc (i : nat) (rs : list P000.rule) (r : P000.rule)
    (p : bytes) (pos : nat) :
  1 ≤ i →
  last_covering i (rs ++ [r]) p pos
  = if covered (P000.rule_Regexp r) p pos then i + length rs
    else last_covering i rs p pos.
Proof.
  revert i. induction rs as [|r' rs IH]; intros i Hi; simpl.
  - rewrite Nat.add_0_r. by destruct (covered _ _ _).
  - rewrite IH by lia. destruct (covered (P000.rule_Regexp r) p pos).
    + replace (S i + length rs) with (i + S (length rs)) by lia.
      by destruct (i + S (length rs)) eqn:Hz; [lia|].
    + done.
Qed.

(** X17. What [AddRule] changes in the next [Write]: the rules keep their
    order and their hues, the new rule gets the next number and its hue the
    next slot of [rulemap]; every byte inside a match of the new pattern
    gets the new number (as a byte), every other byte keeps the index it had
    without the new rule. *)
Theorem AddRule_paints_over
    (w : P000.RegexpWriter) (h : P000.hue) (re : P000.Regexp) (p : bytes) (pos : nat) :
  pos < length p →
  P000.rules (P000.AddRule w h re) = P000.rules w ++ [P000.mkrule h re]
  ∧ P000.wrapped (P000.AddRule w h re) = P000.wrapped w
  ∧ rulemap_of (P000.rules (P000.AddRule w h re)) p
    = rulemap_of (P000.rules w) p ++ [Some h]
  ∧ huemap_of (P000.rules (P000.AddRule w h re)) p !! pos
    = if covered re p pos then Some (byte_of_int (S (length (P000.rules w))))
      else huemap_of (P000.rules w) p !! pos.
Proof.
  intros Hpos. split; [done|]. split; [done|]. split.
  - rewrite !rulemap_of_eq. simpl. by rewrite fmap_app.
  - simpl. rewrite !huemap_of_lookup by done.
    rewrite last_covering_snoc by done. simpl.
    by destruct (covered re p pos).
Qed.

Lemma AddRule_paints_over_witness :
  huemap_of (P000.rules (P000.AddRule
                           (P000.AddRule (P000.NewRegexpWriter P000.ToSink) green (re_at 0 5))
                           red (re_at 3 8)))
            (lit "0123456789") !! 4
  = Some 2.
Proof.
  destruct (AddRule_paints_over
              (P000.AddRule (P000.NewRegexpWriter P000.ToSink) green (re_at 0 5))
              red (re_at 3 8) (lit "0123456789") 4) as (_ & _ & _ & ->).
  - vm_compute. lia.
  - reflexivity.
Defined.



End rule_management.

(** * Further properties: buffers without a match, buffers fully matched *)
Section coverage.
Local Open Scope nat_scope.





End coverage.

(** * Further properties: printing through a [Hue] of [part_001] *)
Section print_001.



End print_001.
